(** * translate.py: retry / model-rotation / resume control loop

    A shallow embedding of [src/translate.py].  The script fetches a book
    of Hadith records, sends chapter names and records through a
    generative-AI endpoint, and persists per-chapter JSON files that a later
    run resumes from.

    The external world is explicit:
    - the translation endpoint is an oracle: a list of [outcome]s, one per
      call, consumed in call order (whatever the endpoint answers, some
      list describes it);
    - the remote corpus is a function from book key to [fetch_outcome];
    - the disk is a finite map from path to file content;
    - [print] and [time.sleep] have no effect on the state and are left out.

    Files and payloads are typed by the schema the script itself reads and
    writes (section 6 of the specification).  The corpus is taken as its
    schema gives it, with integer identifiers.  What comes back from the
    endpoint is not: a reply may parse to something that is no object, and
    the ["id"] of a translated object is whatever the endpoint wrote, which
    the script compares as it stands and converts with [int] only when it
    sorts.  Where the Python code raises an exception that nothing catches,
    the embedding has [Raise].

    A run is a function of the world and the oracle.  When the oracle is
    used up in the middle of a call the run is [Pending]: that is the state
    in which the script waits for the endpoint, and the state a SIGINT
    finds it in ([interrupt]). *)

From stdpp Require Import gmap strings list pretty.
From Stdlib Require Import ZArith Lia Ascii.

Open Scope Z_scope.

(** ** Data model *)

Record metadata := { md_english_title : string; md_arabic_title : string }.

(** A chapter of the fetched book: [{id, english, arabic}]. *)
Record chapter := { c_id : Z; c_english : string; c_arabic : string }.

(** A Hadith record of the fetched book:
    [{id, chapterId, idInBook, english:{text, narrator}, arabic}]. *)
Record hadith := {
  h_id : Z;
  h_chapterId : Z;
  h_idInBook : Z;
  h_english_text : string;
  h_narrator : string;
  h_arabic : string
}.

Record book := {
  b_id : Z;
  b_metadata : metadata;
  b_chapters : list chapter;
  b_hadiths : list hadith
}.

(** [translation_data] of [process_hadiths] (lines 223-229): the projection
    of a record that is sent to the endpoint. *)
Record translation_data := {
  td_id : Z;
  td_english_text : string;
  td_arabic_text : string;
  td_narrator : string;
  td_idInBook : Z
}.

(** The value under ["id"] of a translated Hadith object.  The script
    compares these values as Python does, with [==] and [hash] (lines 450
    and 458), and converts them with [int] when it sorts (line 490).
    - [IdInt n]: a number equal to the integer [n];
    - [IdOther repr as_int]: any other scalar (a string such as ["1"], a
      number that is no integer, [null]), told apart by its Python [repr];
      [as_int] is what [int] makes of the value, [None] when [int] raises
      (it is a function of the value: equal [repr], equal [as_int]);
    - [IdAbsent]: the object has no ["id"], or holds a list or an object
      under it: reading the key, hashing the value and [int] all raise. *)
Inductive id_value :=
| IdInt (n : Z)
| IdOther (repr : string) (as_int : option Z)
| IdAbsent.

#[global] Instance id_value_eq_dec : EqDecision id_value.
Proof. solve_decision. Defined.

#[global] Instance id_value_countable : Countable id_value.
Proof.
  apply (inj_countable'
           (λ i, match i with
                 | IdInt n => inl n
                 | IdOther repr as_int => inr (Some (repr, as_int))
                 | IdAbsent => inr None
                 end)
           (λ x, match x with
                 | inl n => IdInt n
                 | inr (Some (repr, as_int)) => IdOther repr as_int
                 | inr None => IdAbsent
                 end)).
  by intros [].
Defined.

(** [int(x["id"])] (line 490); [None] when it raises. *)
Definition int_of_id (i : id_value) : option Z :=
  match i with
  | IdInt n => Some n
  | IdOther _ as_int => as_int
  | IdAbsent => None
  end.

(** A translated Hadith object, as the endpoint returns it and as a chapter
    file stores it. *)
Record translated := {
  t_id : id_value;
  t_hadith_number : Z;
  t_tajuk_hadith : string;
  t_perawi_melayu : string;
  t_english_text : string;
  t_arabic_text : string;
  t_malay_translation : string
}.

(** An entry of the chapter-name index: [{id, english, malay}].  The
    identifier is the chapter's own, copied from the corpus (line 400);
    the endpoint has no part in it. *)
Record tchapter := { tc_id : Z; tc_english : string; tc_malay : string }.

(** The chapter-name index file: [{id, metadata, chapters}]. *)
Record index_file := {
  ix_id : Z;
  ix_metadata : metadata;
  ix_chapters : list tchapter
}.

(** Content of a file on disk, as [json.load] sees it. *)
Inductive file :=
| Garbage                              (* json.load raises JSONDecodeError *)
| IndexJson (ix : index_file)          (* chapter_names.json *)
| ChapterJson (l : list translated)    (* chapter_<id>.json *)
| ErrorsJson (l : list Z).             (* error_hadiths.json *)

(** What [json.loads] makes of a reply's text in [translate_hadith]
    (lines 75-81) once the code fences are stripped. *)
Inductive parsed :=
| PNone                    (* JSONDecodeError (function returns None), or JSON null *)
| PFalsy                   (* a parsed value that is falsy but not None, such as {} *)
| PTruthy                  (* a truthy value that is no object, such as [1] or 5 *)
| PObject (t : translated).  (* a truthy object *)

(** A reply of the endpoint: its stripped text, and that text parsed. *)
Record reply := { text : string; json : parsed }.

(** One call of [generate_content_with_timeout], seen from the caller. *)
Inductive outcome :=
| Reply (r : reply)
| TimeoutError                 (* no result within 300 seconds *)
| Raised (msg : string).       (* any other exception; msg is str(e) *)

Inductive fetch_outcome :=
| Fetched (b : book)
| FetchParseError              (* fetch_book_data returns None *)
| FetchRequestError.           (* requests.exceptions.RequestException is raised *)

(** What a run does to the outside: a call of the endpoint (with the model
    it names and the outcome it gets) or the writing of a file. *)
Inductive event :=
| EvTranslateChapter (model : string) (chapter_name : string) (o : outcome)
| EvTranslateHadith (model : string) (data : translation_data) (o : outcome)
| EvWrite (path : string).

Record world := {
  fs : gmap string file;
  error_hadith_numbers : list Z;
  events : list event
}.

(** The exceptions that leave a function of the script: the network
    error of the fetch, which the main block catches, and any other, which
    nothing catches (an AttributeError, TypeError, KeyError or ValueError,
    according to the place). *)
Inductive exn := RequestException | UncaughtError.

(** The run of a piece of the script from a world and an oracle. *)
Inductive result (A : Type) :=
| Done (a : A) (w : world) (tr : list outcome)
| Pending (w : world)          (* inside a call the oracle does not answer *)
| Raise (e : exn) (w : world)
| Exited (code : Z) (w : world)
| Diverged (w : world).        (* loops forever without calling the endpoint *)

Arguments Done {A} a w tr.
Arguments Pending {A} w.
Arguments Raise {A} e w.
Arguments Exited {A} code w.
Arguments Diverged {A} w.

Definition bind {A B} (r : result A)
    (k : A → world → list outcome → result B) : result B :=
  match r with
  | Done a w tr => k a w tr
  | Pending w => Pending w
  | Raise e w => Raise e w
  | Exited c w => Exited c w
  | Diverged w => Diverged w
  end.

Definition world_of {A} (r : result A) : world :=
  match r with
  | Done _ w _ | Pending w | Raise _ w | Exited _ w | Diverged w => w
  end.

Definition log (e : event) (w : world) : world :=
  {| fs := fs w; error_hadith_numbers := error_hadith_numbers w;
     events := events w ++ [e] |}.

(** [with open(path, "w") as f: json.dump(content, f)] *)
Definition write (path : string) (content : file) (w : world) : world :=
  {| fs := <[path := content]> (fs w);
     error_hadith_numbers := error_hadith_numbers w;
     events := events w ++ [EvWrite path] |}.

(** [error_hadith_numbers.append(n)] *)
Definition append_error (n : Z) (w : world) : world :=
  {| fs := fs w; error_hadith_numbers := error_hadith_numbers w ++ [n];
     events := events w |}.

(** ** Translation client: the text of a reply *)

(** [str.startswith]. *)
Fixpoint startswith (prefix s : string) : bool :=
  match prefix, s with
  | EmptyString, _ => true
  | String a p, String b s' => if Ascii.eqb a b then startswith p s' else false
  | String _ _, EmptyString => false
  end.

(** [s[n:]] for [n >= 0]. *)
Fixpoint string_drop (n : nat) (s : string) : string :=
  match n, s with
  | O, _ => s
  | S n', String _ s' => string_drop n' s'
  | S _, EmptyString => EmptyString
  end.

(** [s[:n]] for [n >= 0]. *)
Fixpoint string_take (n : nat) (s : string) : string :=
  match n, s with
  | O, _ => EmptyString
  | S n', String a s' => String a (string_take n' s')
  | S _, EmptyString => EmptyString
  end.

(** [str.endswith]. *)
Definition endswith (suffix s : string) : bool :=
  (String.length suffix <=? String.length s)%nat
  && String.eqb (string_drop (String.length s - String.length suffix) s) suffix.

(** [s[:-n]] for [n > 0]. *)
Definition string_drop_last (n : nat) (s : string) : string :=
  string_take (String.length s - n) s.

(** Lines 67-73 of [translate_hadith]: the Markdown code fence around a
    reply is removed from its stripped text. *)
Definition strip_code_fences (text : string) : string :=
  let text :=
    if startswith "```json" text then string_drop 7 text
    else if startswith "```" text then string_drop 3 text
    else text in
  if endswith "```" text then string_drop_last 3 text else text.

(** The marker of a quota failure in the text of an exception. *)
Definition QUOTA_MARKER : string := "429 RESOURCE_EXHAUSTED".

(** ** Model-rotation retry policy *)

(** ["429 RESOURCE_EXHAUSTED" in str(e)] (lines 144 and 252). *)
Definition quota_exhausted (msg : string) : bool :=
  match String.index 0 "429 RESOURCE_EXHAUSTED" msg with
  | Some _ => true
  | None => false
  end.

(** The block both retry loops run on a quota failure (lines 145-150 and
    253-258): count the failure; at 4, rotate and reset. *)
Definition on_resource_exhausted (models : list string)
    (model_index resource_exhausted_count : nat) : nat * nat :=
  let resource_exhausted_count := S resource_exhausted_count in
  if (4 <=? resource_exhausted_count)%nat
  then ((model_index + 1) `mod` length models, 0)%nat
  else (model_index, resource_exhausted_count).

(** [translate_chapter_name], lines 125-170: the [while] loop, one oracle
    outcome per iteration.  The function returns the name and the model
    index; its exhaustion counter is a local that is not returned. *)
Fixpoint translate_chapter_name_loop (models : list string)
    (chapter_name : string) (attempts_limit : nat) (tr : list outcome)
    (attempts model_index resource_exhausted_count : nat) (w : world)
    : result (option string * nat) :=
  if (attempts_limit <=? attempts)%nat then Done (None, model_index) w tr
  else
    match models !! model_index with
    | None => Done (None, model_index) w tr  (* IndexError, caught at line 143 *)
    | Some model =>
      match tr with
      | [] => Pending w
      | o :: tr' =>
        let w' := log (EvTranslateChapter model chapter_name o) w in
        match o with
        | Reply r => Done (Some (text r), model_index) w' tr'
        | TimeoutError => Done (None, model_index) w' tr'
        | Raised msg =>
          if quota_exhausted msg then
            let '(mi, cnt) :=
              on_resource_exhausted models model_index resource_exhausted_count in
            translate_chapter_name_loop models chapter_name attempts_limit tr'
              (S attempts) mi cnt w'
          else Done (None, model_index) w' tr'
        end
      end
    end.

Definition translate_chapter_name (models : list string)
    (chapter_name : string) (model_index resource_exhausted_count : nat)
    (w : world) (tr : list outcome) : result (option string * nat) :=
  translate_chapter_name_loop models chapter_name 20 tr 0 model_index
    resource_exhausted_count w.

(** [process_hadiths], lines 231-272: the retry loop of one record.
    [attempts] grows only when [translate_hadith] returns; each of the
    three [continue] statements goes back to the loop test without it. *)
Fixpoint hadith_retry_loop (models : list string) (data : translation_data)
    (tr : list outcome) (attempts model_index resource_exhausted_count : nat)
    (w : world) : result (parsed * nat * nat) :=
  if (5 <=? attempts)%nat
  then Done (PNone, model_index, resource_exhausted_count) w tr
  else
    match models !! model_index with
    | None => Diverged w   (* IndexError inside the try: caught, continue *)
    | Some model =>
      match tr with
      | [] => Pending w
      | o :: tr' =>
        let w' := log (EvTranslateHadith model data o) w in
        match o with
        | Reply r =>
          match json r with
          | PNone =>
            hadith_retry_loop models data tr' (S attempts) model_index
              resource_exhausted_count w'
          | v => Done (v, model_index, resource_exhausted_count) w' tr'
          end
        | TimeoutError =>
          hadith_retry_loop models data tr' attempts model_index
            resource_exhausted_count w'
        | Raised msg =>
          if quota_exhausted msg then
            let '(mi, cnt) :=
              on_resource_exhausted models model_index resource_exhausted_count in
            hadith_retry_loop models data tr' attempts mi cnt w'
          else
            hadith_retry_loop models data tr' attempts model_index
              resource_exhausted_count w'
        end
      end
    end.

(** ** Per-chapter Hadith translation *)

Definition make_translation_data (h : hadith) : translation_data :=
  {| td_id := h_id h;
     td_english_text := h_english_text h;
     td_arabic_text := h_arabic h;
     td_narrator := h_narrator h;
     td_idInBook := h_idInBook h |}.

(** [translated_hadith["arabic_text"] = arabic_text] (line 284). *)
Definition set_arabic_text (t : translated) (arabic : string) : translated :=
  {| t_id := t_id t;
     t_hadith_number := t_hadith_number t;
     t_tajuk_hadith := t_tajuk_hadith t;
     t_perawi_melayu := t_perawi_melayu t;
     t_english_text := t_english_text t;
     t_arabic_text := arabic;
     t_malay_translation := t_malay_translation t |}.

(** The [for] loop of [process_hadiths] (lines 195-299). *)
Fixpoint process_hadiths_loop (models : list string)
    (hadiths_in_chapter : list hadith) (translated_hadiths : list translated)
    (successful_translations model_index resource_exhausted_count : nat)
    (w : world) (tr : list outcome)
    : result (list translated * nat * nat * nat) :=
  match hadiths_in_chapter with
  | [] =>
    Done (translated_hadiths, successful_translations, model_index,
          resource_exhausted_count) w tr
  | h :: rest =>
    bind (hadith_retry_loop models (make_translation_data h) tr 0 model_index
            resource_exhausted_count w)
      (λ '(translated_hadith, mi, _) w' tr',
         match translated_hadith with
         | PObject t =>
           process_hadiths_loop models rest
             (translated_hadiths ++ [set_arabic_text t (h_arabic h)])
             (S successful_translations) mi 0 w' tr'
         | PTruthy =>
           (* translated_hadith["arabic_text"] = ... raises TypeError
              (line 284); nothing catches it *)
           Raise UncaughtError w'
         | PNone | PFalsy =>
           process_hadiths_loop models rest translated_hadiths
             successful_translations mi 0
             (append_error (h_idInBook h) w') tr'
         end)
  end.

(** [process_hadiths] (lines 173-312).  [None] is returned when no record
    of the work list was translated. *)
Definition process_hadiths (models : list string) (chapter_id : Z)
    (all_hadiths_data : list hadith)
    (model_index resource_exhausted_count : nat)
    (w : world) (tr : list outcome)
    : result (option (list translated) * nat * nat) :=
  let hadiths_in_chapter :=
    filter (λ h, h_chapterId h = chapter_id) all_hadiths_data in
  bind (process_hadiths_loop models hadiths_in_chapter [] 0 model_index
          resource_exhausted_count w tr)
    (λ '(translated_hadiths, successful_translations, mi, cnt) w' tr',
       if (successful_translations =? 0)%nat
       then Done (None, mi, cnt) w' tr'
       else Done (Some translated_hadiths, mi, cnt) w' tr').

(** ** Chapter resume store *)

(** [str.lower] and [str.replace(' ', '-')] on ASCII book keys. *)
Definition lower_ascii (c : ascii) : ascii :=
  let n := nat_of_ascii c in
  if ((65 <=? n) && (n <=? 90))%nat then ascii_of_nat (n + 32) else c.

Fixpoint lower (s : string) : string :=
  match s with
  | EmptyString => EmptyString
  | String c s' => String (lower_ascii c) (lower s')
  end.

Fixpoint replace_space (s : string) : string :=
  match s with
  | EmptyString => EmptyString
  | String c s' =>
    String (if Ascii.eqb c " " then "-"%char else c) (replace_space s')
  end.

(** [f"hadiths/{book_name.replace(' ', '-').lower()}"] (lines 352, 619). *)
Definition book_dir (book_name : string) : string :=
  "hadiths/" +:+ lower (replace_space book_name).

(** [f"{book_dir}/chapter_names.json"] (line 355). *)
Definition chapter_names_path (book_name : string) : string :=
  book_dir book_name +:+ "/chapter_names.json".

(** [f"{book_dir}/chapter_{chapter_id}.json"] (lines 433, 528). *)
Definition chapter_path (book_name : string) (chapter_id : Z) : string :=
  book_dir book_name +:+ "/chapter_" +:+ pretty chapter_id +:+ ".json".

Definition error_path : string := "error_hadiths.json".

(** Lines 356-369: the chapter list of the index file, [[]] when the file
    is absent or not decodable.  A decodable file that is not an object
    has no [.get]: the AttributeError is not caught. *)
Definition load_chapter_names (f : option file) : option (list tchapter) :=
  match f with
  | None => Some []
  | Some Garbage => Some []
  | Some (IndexJson ix) => Some (ix_chapters ix)
  | Some (ChapterJson _) | Some (ErrorsJson _) => None
  end.

(** The set comprehension of line 450 can read and hash the ["id"] of the
    record. *)
Definition has_id (x : translated) : bool :=
  match t_id x with
  | IdAbsent => false
  | _ => true
  end.

(** Lines 440-450: the records of an existing chapter file, [[]] when it is
    not decodable.  A decodable file whose items have no usable ["id"]
    makes the set comprehension of line 450 raise. *)
Definition load_existing_hadiths (f : file) : option (list translated) :=
  match f with
  | Garbage => Some []
  | ChapterJson l => if forallb has_id l then Some l else None
  | ErrorsJson [] => Some []
  | IndexJson _ | ErrorsJson _ => None
  end.

(** [list.sort(key=lambda x: int(x["id"]))] (line 490).  The keys of all
    the records are computed first; if [int] raises for one of them the
    sort raises and the list is not written ([has_int_id], tested by
    [process_chapter]).  Otherwise the list is sorted by key, stably. *)
Definition has_int_id (x : translated) : bool :=
  match int_of_id (t_id x) with
  | Some _ => true
  | None => false
  end.

Definition sort_key (x : translated) : Z := default 0 (int_of_id (t_id x)).

Fixpoint insert_by_id (x : translated) (l : list translated) : list translated :=
  match l with
  | [] => [x]
  | y :: l' =>
    if (sort_key x <=? sort_key y)%Z then x :: y :: l'
    else y :: insert_by_id x l'
  end.

Fixpoint sort_by_id (l : list translated) : list translated :=
  match l with
  | [] => []
  | x :: l' => insert_by_id x (sort_by_id l')
  end.

(** ** Book processing loop *)

(** The fixed model list of [process_book] (lines 339-348). *)
Definition MODELS : list string :=
  [ "gemini-2.0-flash";
    "gemini-2.0-flash-lite";
    "gemini-2.0-flash-exp";
    "gemini-2.0-flash-thinking-exp-01-21";
    "gemini-1.5-flash";
    "gemini-1.5-flash-8b";
    "gemini-1.5-flash-8b-exp-0924";
    "learnlm-1.5-pro-experimental" ].

(** Lines 595-605. *)
Definition BOOKS : list string :=
  [ "bukhari"; "muslim"; "abudawud"; "tirmidhi"; "nasai"; "ibnmajah";
    "ahmed"; "darimi"; "malik" ].

(** [chapter["english"] if chapter["english"] else chapter["arabic"]] *)
Definition chapter_title (c : chapter) : string :=
  match c_english c with
  | EmptyString => c_arabic c
  | s => s
  end.

(** The first [for chapter in chapters] loop (lines 375-412).  The set of
    translated ids is built once, before the loop; the exhaustion counter
    handed to [translate_chapter_name] is the caller's, which the call
    does not update. *)
Fixpoint chapter_names_loop (models : list string)
    (translated_chapter_ids : gset Z) (chapters : list chapter)
    (translated_chapters : list tchapter)
    (model_index resource_exhausted_count : nat)
    (w : world) (tr : list outcome) : result (list tchapter * nat) :=
  match chapters with
  | [] => Done (translated_chapters, model_index) w tr
  | c :: rest =>
    if decide (c_id c ∈ translated_chapter_ids) then
      chapter_names_loop models translated_chapter_ids rest translated_chapters
        model_index resource_exhausted_count w tr
    else
      bind (translate_chapter_name models (chapter_title c) model_index
              resource_exhausted_count w tr)
        (λ '(translated_title, mi) w' tr',
           match translated_title with
           | None | Some EmptyString =>
             chapter_names_loop models translated_chapter_ids rest
               translated_chapters mi resource_exhausted_count w' tr'
           | Some malay =>
             chapter_names_loop models translated_chapter_ids rest
               (translated_chapters ++
                  [{| tc_id := c_id c; tc_english := chapter_title c;
                      tc_malay := malay |}])
               mi resource_exhausted_count w' tr'
           end)
  end.

(** [existing_hadith_ids = {h["id"] for h in existing_hadiths}] and
    [h for h in chapter_hadiths if h["id"] not in existing_hadith_ids]
    (lines 450-459): the identifiers are compared as they stand, the
    integer of the corpus against whatever the file holds. *)
Definition missing_hadiths (existing_hadiths : list translated)
    (chapter_hadiths : list hadith) : list hadith :=
  let existing_hadith_ids : gset id_value :=
    list_to_set (t_id <$> existing_hadiths) in
  filter (λ h, IdInt (h_id h) ∉ existing_hadith_ids) chapter_hadiths.

(** The body of the second [for chapter in chapters] loop (lines 429-533). *)
Definition process_chapter (models : list string) (book_name : string)
    (all_hadiths_data : list hadith) (c : chapter)
    (model_index resource_exhausted_count : nat)
    (w : world) (tr : list outcome) : result (nat * nat) :=
  let chapter_id := c_id c in
  let filename := chapter_path book_name chapter_id in
  let hadiths_in_chapter :=
    filter (λ h, h_chapterId h = chapter_id) all_hadiths_data in
  match fs w !! filename with
  | Some f =>
    match load_existing_hadiths f with
    | None => Raise UncaughtError w
    | Some existing_hadiths =>
      match missing_hadiths existing_hadiths hadiths_in_chapter with
      | [] => Done (model_index, resource_exhausted_count) w tr
      | missing =>
        bind (process_hadiths models chapter_id missing model_index
                resource_exhausted_count w tr)
          (λ '(translated_missing_hadiths, mi, cnt) w' tr',
             match translated_missing_hadiths with
             | Some (t :: l) =>
               let merged := existing_hadiths ++ t :: l in
               if forallb has_int_id merged then
                 Done (mi, cnt)
                   (write filename (ChapterJson (sort_by_id merged)) w') tr'
               else
                 (* int(x["id"]) raises inside the sort (line 490) *)
                 Raise UncaughtError w'
             | _ => Done (mi, cnt) w' tr'
             end)
      end
    end
  | None =>
    bind (process_hadiths models chapter_id hadiths_in_chapter model_index
            resource_exhausted_count w tr)
      (λ '(translated_hadiths, mi, cnt) w' tr',
         match translated_hadiths with
         | Some (t :: l) =>
           Done (mi, cnt) (write filename (ChapterJson (t :: l)) w') tr'
         | _ => Done (mi, cnt) w' tr'
         end)
  end.

Fixpoint chapters_loop (models : list string) (book_name : string)
    (all_hadiths_data : list hadith) (chapters : list chapter)
    (model_index resource_exhausted_count : nat)
    (w : world) (tr : list outcome) : result (nat * nat) :=
  match chapters with
  | [] => Done (model_index, resource_exhausted_count) w tr
  | c :: rest =>
    bind (process_chapter models book_name all_hadiths_data c model_index
            resource_exhausted_count w tr)
      (λ '(mi, cnt) w' tr',
         chapters_loop models book_name all_hadiths_data rest mi cnt w' tr')
  end.

(** Lines 354-412 of [process_book]: load the chapter-name index, then
    translate the names of the chapters it does not hold. *)
Definition translate_chapter_names (models : list string) (book_name : string)
    (book_data : book) (model_index resource_exhausted_count : nat)
    (w : world) (tr : list outcome) : result (list tchapter * nat) :=
  match load_chapter_names (fs w !! chapter_names_path book_name) with
  | None => Raise UncaughtError w
  | Some translated_chapters =>
    let translated_chapter_ids : gset Z :=
      list_to_set (tc_id <$> translated_chapters) in
    chapter_names_loop models translated_chapter_ids (b_chapters book_data)
      translated_chapters model_index resource_exhausted_count w tr
  end.

(** [process_book] (lines 315-533).  The model index and the exhaustion
    counter are locals, set to 0 at line 338 and line 349. *)
Definition process_book (remote : string → fetch_outcome) (book_name : string)
    (w : world) (tr : list outcome) : result unit :=
  match remote (lower book_name) with
  | FetchRequestError => Raise RequestException w
  | FetchParseError => Done () w tr
  | Fetched book_data =>
    let model_index := 0%nat in
    let models := MODELS in
    let resource_exhausted_count := 0%nat in
    bind (translate_chapter_names models book_name book_data model_index
            resource_exhausted_count w tr)
      (λ '(translated_chapters, mi) w' tr',
         let data_to_save :=
           {| ix_id := b_id book_data;
              ix_metadata := b_metadata book_data;
              ix_chapters := translated_chapters |} in
         let w'' :=
           write (chapter_names_path book_name) (IndexJson data_to_save) w' in
         bind (chapters_loop models book_name (b_hadiths book_data)
                 (b_chapters book_data) mi resource_exhausted_count w'' tr')
           (λ _ w3 tr3, Done () w3 tr3))
  end.

(** ** Main execution and interruption *)

(** Lines 633-640 and 17-22: the error list is written when it is not
    empty. *)
Definition save_error_hadiths (w : world) : world :=
  match error_hadith_numbers w with
  | [] => w
  | l => write error_path (ErrorsJson l) w
  end.

Fixpoint books_loop (remote : string → fetch_outcome) (books : list string)
    (w : world) (tr : list outcome) : result unit :=
  match books with
  | [] => Done () w tr
  | book_name :: rest =>
    bind (process_book remote book_name w tr)
      (λ _ w' tr', books_loop remote rest w' tr')
  end.

(** The main block (lines 609-661), from a disk [disk]. *)
Definition main (remote : string → fetch_outcome) (disk : gmap string file)
    (tr : list outcome) : result unit :=
  let w0 := {| fs := disk; error_hadith_numbers := []; events := [] |} in
  match books_loop remote BOOKS w0 tr with
  | Done _ w _ => Exited 0 (save_error_hadiths w)
  | Raise RequestException w => Exited 1 w
  | r => r
  end.

(** [signal_handler] (lines 14-23). *)
Definition signal_handler {A} (w : world) : result A :=
  Exited 0 (save_error_hadiths w).

(** SIGINT while the script waits in a call of the endpoint. *)
Definition interrupt {A} (r : result A) : result A :=
  match r with
  | Pending w => signal_handler w
  | r => r
  end.

(** ** Vocabulary of the statements *)

(** The outcome of a call; a write has none. *)
Definition outcome_of (e : event) : option outcome :=
  match e with
  | EvTranslateChapter _ _ o | EvTranslateHadith _ _ o => Some o
  | EvWrite _ => None
  end.

(** The outcomes of the calls among [evs], in call order. *)
Definition calls (evs : list event) : list outcome := omap outcome_of evs.

(** The call came back with a reply. *)
Definition is_reply (o : outcome) : bool :=
  match o with Reply _ => true | _ => false end.

(** The attempts that came back with a reply (parseable or not). *)
Definition returned_attempts (os : list outcome) : nat :=
  length (filter (λ o, is_reply o = true) os).

(** The piece of the script has run to its end. *)
Definition finished {A} (r : result A) : bool :=
  match r with Done _ _ _ => true | _ => false end.

(** The model a call was sent to. *)
Definition model_of (e : event) : option string :=
  match e with
  | EvTranslateChapter m _ _ | EvTranslateHadith m _ _ => Some m
  | EvWrite _ => None
  end.

(** The records sent to the endpoint among [evs], in call order. *)
Definition submitted (evs : list event) : list translation_data :=
  omap (λ e, match e with EvTranslateHadith _ d _ => Some d | _ => None end) evs.

(** The chapter names sent to the endpoint among [evs], in call order. *)
Definition submitted_names (evs : list event) : list string :=
  omap (λ e, match e with EvTranslateChapter _ n _ => Some n | _ => None end) evs.

(** The paths written among [evs], in order. *)
Definition writes (evs : list event) : list string :=
  omap (λ e, match e with EvWrite p => Some p | _ => None end) evs.

(** [rotation_path models i evs j]: the calls of [evs] are sent to the
    models that the rotation rule allows from index [i], and leave the
    index at [j].  Between two calls the index stays, or, after a call that
    failed on quota, moves to the next model cyclically. *)
Inductive rotation_path (models : list string) : nat → list event → nat → Prop :=
| rp_nil i : rotation_path models i [] i
| rp_write i p evs j :
    rotation_path models i evs j →
    rotation_path models i (EvWrite p :: evs) j
| rp_stay i e evs j model :
    models !! i = Some model → model_of e = Some model →
    rotation_path models i evs j →
    rotation_path models i (e :: evs) j
| rp_rotate i e evs j model msg :
    models !! i = Some model → model_of e = Some model →
    outcome_of e = Some (Raised msg) → quota_exhausted msg = true →
    rotation_path models ((i + 1) `mod` length models)%nat evs j →
    rotation_path models i (e :: evs) j.

(** [e] is a call of the endpoint for the record [data]. *)
Definition hadith_call_of (data : translation_data) (e : event) : Prop :=
  ∃ model o, e = EvTranslateHadith model data o.

(** [e] is a call of the endpoint for the chapter name [name]. *)
Definition chapter_call_of (name : string) (e : event) : Prop :=
  ∃ model o, e = EvTranslateChapter model name o.

(** The piece of the script has ended on an exception it does not catch. *)
Definition raises {A} (r : result A) : bool :=
  match r with Raise _ _ => true | _ => false end.

(** [e] is a call of the endpoint for one of the records [hs]. *)
Definition hadith_call_among (hs : list hadith) (e : event) : Prop :=
  ∃ h, h ∈ hs ∧ hadith_call_of (make_translation_data h) e.

(** The identifiers a chapter file holds, as the resume branch reads them
    (lines 440-450): none when the file cannot be decoded. *)
Definition persisted_ids (f : file) : list id_value :=
  match load_existing_hadiths f with
  | Some existing => t_id <$> existing
  | None => []
  end.

(** The records [process_chapter] has to translate for chapter [c]: all of
    the chapter when it has no file, the missing ones when it has one. *)
Definition work_list (book_name : string) (all : list hadith) (c : chapter)
    (w : world) : list hadith :=
  let hs := filter (λ h, h_chapterId h = c_id c) all in
  match fs w !! chapter_path book_name (c_id c) with
  | None => hs
  | Some f =>
    match load_existing_hadiths f with
    | Some existing => missing_hadiths existing hs
    | None => []
    end
  end.

(** What one chapter of the record phase may do: send one of its records,
    or write its own file. *)
Definition chapter_event_of (path : string) (hs : list hadith) (e : event) : Prop :=
  hadith_call_among hs e ∨ e = EvWrite path.

(** What the chapter-name phase may do: send the name of a chapter whose
    identifier is not among [ids]. *)
Definition names_event_of (ids : gset Z) (cs : list chapter) (e : event) : Prop :=
  ∃ c, c ∈ cs ∧ (c_id c ∉ ids) ∧ chapter_call_of (chapter_title c) e.

(** [tc] is the index entry of a chapter translated in this run. *)
Definition new_entry_of (ids : gset Z) (cs : list chapter) (tc : tchapter) : Prop :=
  ∃ c, c ∈ cs ∧ (c_id c ∉ ids) ∧ tc_id tc = c_id c
       ∧ tc_english tc = chapter_title c ∧ tc_malay tc ≠ "".

(** The index file holds an entry for every chapter of the book. *)
Definition index_complete (f : option file) (b : book) : bool :=
  match f with
  | Some (IndexJson ix) =>
    forallb (λ c, bool_decide (c_id c ∈ tc_id <$> ix_chapters ix)) (b_chapters b)
  | _ => false
  end.

(** The chapter file holds every record of the chapter, under the
    identifier the corpus gives it, and every record in it has an
    identifier. *)
Definition chapter_complete (f : option file) (b : book) (c : chapter) : bool :=
  match f with
  | Some (ChapterJson l) =>
    forallb has_id l
    && forallb
         (λ h, bool_decide (h_chapterId h = c_id c → IdInt (h_id h) ∈ t_id <$> l))
         (b_hadiths b)
  | _ => false
  end.

(** The book is fully translated on [disk]. *)
Definition book_complete (disk : gmap string file) (book_name : string)
    (b : book) : bool :=
  index_complete (disk !! chapter_names_path book_name) b
  && forallb
       (λ c, chapter_complete (disk !! chapter_path book_name (c_id c)) b c)
       (b_chapters b).

(** Ascending order of [int(id)]. *)
Fixpoint is_sorted_by_id (l : list translated) : bool :=
  match l with
  | x :: (y :: _) as l' => (sort_key x <=? sort_key y) && is_sorted_by_id l'
  | _ => true
  end.

(** [e] is a call for a record that came back with a reply parsing to
    [v]. *)
Definition reply_of (v : parsed) (e : event) : Prop :=
  ∃ model data r, e = EvTranslateHadith model data (Reply r) ∧ json r = v.

(** [e] is a reply the record phase cannot handle: it parses to a truthy
    value that is no object (line 284 raises), or to an object whose
    identifier [int] rejects (the sort of line 490 raises). *)
Definition unusable_reply (e : event) : Prop :=
  reply_of PTruthy e ∨ ∃ t, reply_of (PObject t) e ∧ has_int_id t = false.

(** The call failed on quota. *)
Definition quota_failure (e : event) : bool :=
  match outcome_of e with
  | Some (Raised msg) => quota_exhausted msg
  | _ => false
  end.


(** The outcome is a failure on quota. *)
Definition quota_outcome (o : outcome) : bool :=
  match o with
  | Raised msg => quota_exhausted msg
  | _ => false
  end.

(** The quota failures among [os]. *)
Definition quota_failures (os : list outcome) : nat :=
  length (filter (λ o, quota_outcome o = true) os).

(** The attempt for a record has failed: it timed out, it raised, or it
    came back with a reply that cannot be parsed. *)
Definition failed_attempt (o : outcome) : bool :=
  match o with
  | Reply r => if json r is PNone then true else false
  | _ => true
  end.

(** The model that index [i] names, cyclically. *)
Definition model_at (models : list string) (i : nat) : string :=
  default "" (models !! (i `mod` length models)%nat).

(** The rotation state [q] quota failures after index [mi] and counter
    [c]: the index has moved one model forward for every fourth failure
    counted, and the counter holds the rest. *)
Definition rotated_index (models : list string) (mi c q : nat) : nat :=
  ((mi + (c + q) / 4) `mod` length models)%nat.

Definition rotated_count (c q : nat) : nat := ((c + q) `mod` 4)%nat.

(** The calls a retry loop makes for the outcomes [os], from index [mi]
    and counter [c]: each goes to the model the quota failures before it
    have led to. *)
Definition retry_calls (call : string → outcome → event)
    (models : list string) (mi c : nat) (os : list outcome) : list event :=
  imap (λ j o,
          call (model_at models (mi + (c + quota_failures (take j os)) / 4)) o)
    os.

(** The run of a loop of the script is in order: it has ended, it waits
    for the endpoint, or it has stopped on an exception that nothing
    catches.  It is not caught in a loop without calls, and it has neither
    left the process nor raised a network error. *)
Definition in_order {A} (r : result A) : Prop :=
  match r with
  | Done _ _ _ | Pending _ | Raise UncaughtError _ => True
  | Raise RequestException _ | Exited _ _ | Diverged _ => False
  end.

(** [n] is the position-in-book number of a record of [all]. *)
Definition number_of_record_in (all : list hadith) (n : Z) : Prop :=
  ∃ h, h ∈ all ∧ n = h_idInBook h.

(** [n] is the number of a record of a book of [books] that [remote]
    serves. *)
Definition number_of_fetched_record (remote : string → fetch_outcome)
    (books : list string) (n : Z) : Prop :=
  ∃ book_name b,
    book_name ∈ books ∧ remote (lower book_name) = Fetched b
    ∧ number_of_record_in (b_hadiths b) n.

(** [path] is one of the files of the book: its chapter-name index or one
    of its chapter files. *)
Definition file_of_book (book_name : string) (path : string) : Prop :=
  path = chapter_names_path book_name
  ∨ ∃ i, path = chapter_path book_name i.

Arguments calls : simpl never.
Arguments returned_attempts : simpl never.

(** ** Sample data for the concrete runs *)

Definition sample_metadata : metadata :=
  {| md_english_title := "Sahih"; md_arabic_title := "Sahih (ar)" |}.

Definition sample_hadith (id chapter_id : Z) : hadith :=
  {| h_id := id; h_chapterId := chapter_id; h_idInBook := id;
     h_english_text := "text"; h_narrator := "narrator"; h_arabic := "matn" |}.

Definition sample_translated (id : Z) : translated :=
  {| t_id := IdInt id; t_hadith_number := id; t_tajuk_hadith := "tajuk";
     t_perawi_melayu := "perawi"; t_english_text := "text";
     t_arabic_text := "matn"; t_malay_translation := "terjemahan" |}.

Definition sample_chapter (id : Z) (name : string) : chapter :=
  {| c_id := id; c_english := name; c_arabic := "bab" |}.

(** The endpoint answers with a well-formed translation of record [id]. *)
Definition translated_reply (id : Z) : outcome :=
  Reply {| text := "{...}"; json := PObject (sample_translated id) |}.

(** The endpoint answers a chapter-name call with [name]. *)
Definition name_reply (name : string) : outcome :=
  Reply {| text := name; json := PNone |}.

Definition quota_error : outcome :=
  Raised "429 RESOURCE_EXHAUSTED. Quota exceeded.".

(** The endpoint answers with a text that is not JSON. *)
Definition unparseable_reply : reply := {| text := "not json"; json := PNone |}.

Definition empty_world : world :=
  {| fs := ∅; error_hadith_numbers := []; events := [] |}.

Definition resume_world : world :=
  {| fs := {[ chapter_path "bukhari" 1 := ChapterJson [sample_translated 2] ]};
     error_hadith_numbers := []; events := [] |}.

(** A translated record whose identifier is the string ["1"], as
    [{"id": "1", ...}] reads: Python's [repr] of it is ['1'] and [int]
    makes 1 of it. *)
Definition string_id_translated : translated :=
  {| t_id := IdOther "'1'" (Some 1); t_hadith_number := 1;
     t_tajuk_hadith := "tajuk"; t_perawi_melayu := "perawi";
     t_english_text := "text"; t_arabic_text := "matn";
     t_malay_translation := "terjemahan" |}.

(** The chapter file holds record 1 under the string identifier. *)
Definition string_id_world : world :=
  {| fs := {[ chapter_path "bukhari" 1 := ChapterJson [string_id_translated] ]};
     error_hadith_numbers := []; events := [] |}.

Definition book_a : book :=
  {| b_id := 1; b_metadata := sample_metadata;
     b_chapters := [sample_chapter 1 "Revelation"]; b_hadiths := [] |}.

Definition book_b : book :=
  {| b_id := 2; b_metadata := sample_metadata;
     b_chapters := [sample_chapter 1 "Faith"]; b_hadiths := [] |}.

(** A remote corpus with two books; the other keys do not parse. *)
Definition two_books_remote (key : string) : fetch_outcome :=
  if decide (key = "bukhari") then Fetched book_a
  else if decide (key = "muslim") then Fetched book_b
  else FetchParseError.

(** A remote corpus that serves the first book and fails on the second. *)
Definition failing_remote (key : string) : fetch_outcome :=
  if decide (key = "bukhari") then
    Fetched {| b_id := 1; b_metadata := sample_metadata;
               b_chapters := [sample_chapter 1 "Revelation"];
               b_hadiths := [sample_hadith 2 1; sample_hadith 1 1] |}
  else FetchRequestError.

(** The endpoint answers with an empty JSON object. *)
Definition empty_object_reply : outcome :=
  Reply {| text := "{}"; json := PFalsy |}.


Definition stale_index : index_file :=
  {| ix_id := 1;
     ix_metadata := {| md_english_title := "Sahih (old title)";
                       md_arabic_title := "Sahih (ar)" |};
     ix_chapters := [{| tc_id := 1; tc_english := "Revelation";
                        tc_malay := "Wahyu" |}] |}.

Definition complete_book : book :=
  {| b_id := 1; b_metadata := sample_metadata;
     b_chapters := [sample_chapter 1 "Revelation"];
     b_hadiths := [sample_hadith 1 1; sample_hadith 2 1] |}.

Definition complete_world : world :=
  {| fs := {[ chapter_names_path "bukhari" := IndexJson stale_index;
              chapter_path "bukhari" 1 :=
                ChapterJson [sample_translated 1; sample_translated 2] ]};
     error_hadith_numbers := []; events := [] |}.

Definition fresh_index : index_file :=
  {| ix_id := 1; ix_metadata := sample_metadata;
     ix_chapters := [{| tc_id := 1; tc_english := "Revelation";
                        tc_malay := "Wahyu" |}] |}.

Definition rerun_world : world :=
  {| fs := {[ chapter_names_path "bukhari" := IndexJson fresh_index;
              chapter_path "bukhari" 1 :=
                ChapterJson [sample_translated 1; sample_translated 2] ]};
     error_hadith_numbers := []; events := [] |}.

Definition unordered_book : book :=
  {| b_id := 1; b_metadata := sample_metadata;
     b_chapters := [sample_chapter 1 "Revelation"];
     b_hadiths := [sample_hadith 2 1; sample_hadith 1 1] |}.

Definition garbage_world : world :=
  {| fs := {[ chapter_names_path "bukhari" := Garbage;
              chapter_path "bukhari" 1 := Garbage ]};
     error_hadith_numbers := []; events := [] |}.


(** Only the chapter file is undecodable; the index is complete. *)
Definition chapter_garbage_world : world :=
  {| fs := {[ chapter_names_path "bukhari" := IndexJson fresh_index;
              chapter_path "bukhari" 1 := Garbage ]};
     error_hadith_numbers := []; events := [] |}.

(** ** The rotation step *)

Lemma on_resource_exhausted_below models mi c :
  (S c < 4)%nat → on_resource_exhausted models mi c = (mi, S c).
Proof.
  intros Hc. unfold on_resource_exhausted.
  destruct (Nat.leb_spec 4 (S c)); [lia | reflexivity].
Qed.

Lemma on_resource_exhausted_rotates models mi c :
  (4 ≤ S c)%nat →
  on_resource_exhausted models mi c = ((mi + 1) `mod` length models, 0)%nat.
Proof.
  intros Hc. unfold on_resource_exhausted.
  destruct (Nat.leb_spec 4 (S c)); [reflexivity | lia].
Qed.

Lemma on_resource_exhausted_in_range models mi c :
  (mi < length models)%nat →
  ((on_resource_exhausted models mi c).1 < length models)%nat.
Proof.
  intros Hmi. unfold on_resource_exhausted.
  destruct (4 <=? S c)%nat; simpl; [|done].
  apply Nat.mod_upper_bound. lia.
Qed.

(** One quota failure in the record loop: the call is made with the
    current model, the attempt is not counted, and the loop goes on from
    the state [on_resource_exhausted] gives. *)
Lemma hadith_retry_loop_quota models data tr attempts mi c w model msg :
  models !! mi = Some model →
  (attempts < 5)%nat →
  quota_exhausted msg = true →
  hadith_retry_loop models data (Raised msg :: tr) attempts mi c w =
  hadith_retry_loop models data tr attempts
    (on_resource_exhausted models mi c).1
    (on_resource_exhausted models mi c).2
    (log (EvTranslateHadith model data (Raised msg)) w).
Proof.
  intros Hm Ha Hq. cbn [hadith_retry_loop].
  destruct (Nat.leb_spec 5 attempts) as [|_]; [lia|].
  rewrite Hm, Hq. by destruct (on_resource_exhausted models mi c).
Qed.

(** The same failure in the chapter-name loop, where it also counts as an
    attempt. *)
Lemma translate_chapter_name_loop_quota models name limit tr attempts mi c w
    model msg :
  models !! mi = Some model →
  (attempts < limit)%nat →
  quota_exhausted msg = true →
  translate_chapter_name_loop models name limit (Raised msg :: tr) attempts
    mi c w =
  translate_chapter_name_loop models name limit tr (S attempts)
    (on_resource_exhausted models mi c).1
    (on_resource_exhausted models mi c).2
    (log (EvTranslateChapter model name (Raised msg)) w).
Proof.
  intros Hm Ha Hq. cbn [translate_chapter_name_loop].
  destruct (Nat.leb_spec limit attempts) as [|_]; [lia|].
  rewrite Hm, Hq. by destruct (on_resource_exhausted models mi c).
Qed.

(** ** Counting the calls of a run *)

Lemma calls_app evs1 evs2 : calls (evs1 ++ evs2) = calls evs1 ++ calls evs2.
Proof. apply omap_app. Qed.

Lemma returned_attempts_cons o os :
  returned_attempts (o :: os) =
  ((if is_reply o then 1 else 0) + returned_attempts os)%nat.
Proof.
  unfold returned_attempts. rewrite filter_cons.
  destruct (is_reply o); case_decide; simpl; congruence.
Qed.

Lemma calls_cons e evs :
  calls (e :: evs) =
  match outcome_of e with Some o => o :: calls evs | None => calls evs end.
Proof. reflexivity. Qed.

Lemma events_log_app e w evs : events (log e w) ++ evs = events w ++ e :: evs.
Proof. simpl. by rewrite <- app_assoc. Qed.

Lemma events_write_app p f w evs :
  events (write p f w) ++ evs = events w ++ EvWrite p :: evs.
Proof. simpl. by rewrite <- app_assoc. Qed.

Lemma calls_nil : calls [] = [].
Proof. reflexivity. Qed.

Lemma returned_attempts_nil : returned_attempts [] = 0%nat.
Proof. reflexivity. Qed.

(** ** The rotation rule over any sequence of attempts (C1) *)

Lemma quota_failures_cons o os :
  quota_failures (o :: os) =
  ((if quota_outcome o then 1 else 0) + quota_failures os)%nat.
Proof.
  unfold quota_failures. rewrite filter_cons.
  destruct (quota_outcome o); case_decide; simpl; congruence.
Qed.

(** One quota failure, seen from the closed form: the state the rule
    gives, [x] failures later, is the state [S x] failures after the
    state before. *)
Lemma on_resource_exhausted_rotated models mi c x :
  (c < 4)%nat →
  ((on_resource_exhausted models mi c).2 < 4)%nat
  ∧ rotated_index models (on_resource_exhausted models mi c).1
      (on_resource_exhausted models mi c).2 x =
    rotated_index models mi c (S x)
  ∧ rotated_count (on_resource_exhausted models mi c).2 x =
    rotated_count c (S x)
  ∧ model_at models
      ((on_resource_exhausted models mi c).1
       + ((on_resource_exhausted models mi c).2 + x) / 4) =
    model_at models (mi + (c + S x) / 4).
Proof.
  intros Hc. unfold on_resource_exhausted, rotated_index, rotated_count, model_at.
  destruct (Nat.leb_spec 4 (S c)) as [H4|H4]; cbn [fst snd].
  - assert (c = 3)%nat as -> by lia.
    replace (3 + S x)%nat with (1 * 4 + x)%nat by lia.
    rewrite Nat.div_add_l by lia. rewrite Nat.add_0_l.
    rewrite Nat.Div0.add_mod_idemp_l.
    replace (mi + 1 + x / 4)%nat with (mi + (1 + x / 4))%nat by lia.
    split; [lia|]. split; [done|]. split; [|done].
    rewrite (Nat.add_comm (1 * 4) x). by rewrite Nat.Div0.mod_add.
  - replace (c + S x)%nat with (S c + x)%nat by lia. split; [lia|done].
Qed.

Lemma rotated_zero models mi c :
  (mi < length models)%nat → (c < 4)%nat →
  rotated_index models mi c 0 = mi ∧ rotated_count c 0 = c.
Proof.
  intros Hmi Hc. unfold rotated_index, rotated_count.
  rewrite Nat.add_0_r, Nat.div_small, Nat.add_0_r by done.
  by rewrite !Nat.mod_small.
Qed.

Lemma model_at_lookup models mi c model :
  models !! mi = Some model → (c < 4)%nat →
  model_at models (mi + (c + 0) / 4) = model.
Proof.
  intros Hm Hc. unfold model_at.
  rewrite Nat.add_0_r, Nat.div_small, Nat.add_0_r by done.
  rewrite Nat.mod_small by (by eapply lookup_lt_Some). by rewrite Hm.
Qed.

(** The first call of [retry_calls] goes to the current model; the others
    are the calls from the state the first outcome leaves. *)
Lemma retry_calls_cons call models mi c o os model :
  models !! mi = Some model → (c < 4)%nat →
  retry_calls call models mi c (o :: os) =
  call model o ::
  (if quota_outcome o
   then retry_calls call models (on_resource_exhausted models mi c).1
          (on_resource_exhausted models mi c).2 os
   else retry_calls call models mi c os).
Proof.
  intros Hm Hc. unfold retry_calls. rewrite imap_cons. f_equal.
  - cbn [take]. change (quota_failures []) with 0%nat.
    by rewrite (model_at_lookup _ _ _ model).
  - destruct (quota_outcome o) eqn:Hq; apply imap_ext; intros j o' _; simpl;
      rewrite quota_failures_cons, Hq.
    + f_equal. symmetry.
      replace (c + (1 + quota_failures (take j os)))%nat
        with (c + S (quota_failures (take j os)))%nat by lia.
      by apply on_resource_exhausted_rotated.
    + done.
Qed.

(** The record loop over any sequence of failed attempts followed by a
    usable reply. *)
Lemma hadith_retry_loop_failures models data r tr :
  json r ≠ PNone →
  ∀ os attempts mi c w,
    (mi < length models)%nat → (c < 4)%nat →
    Forall (λ o, failed_attempt o = true) os →
    (attempts + returned_attempts os < 5)%nat →
    hadith_retry_loop models data (os ++ Reply r :: tr) attempts mi c w =
    Done (json r, rotated_index models mi c (quota_failures os),
          rotated_count c (quota_failures os))
      {| fs := fs w; error_hadith_numbers := error_hadith_numbers w;
         events :=
           events w ++
           retry_calls (λ m o, EvTranslateHadith m data o) models mi c
             (os ++ [Reply r]) |}
      tr.
Proof.
  intros Hr. induction os as [|o os IH]; intros attempts mi c w Hmi Hc Hall Hatt;
    destruct (lookup_lt_is_Some_2 models mi Hmi) as [model Hm];
    cbn [app]; rewrite (retry_calls_cons _ _ _ _ _ _ model) by done;
    cbn [hadith_retry_loop];
    (destruct (Nat.leb_spec 5 attempts) as [|_]; [lia|]); rewrite Hm.
  - change (quota_failures []) with 0%nat.
    destruct (rotated_zero models mi c Hmi Hc) as [-> ->].
    cbn [quota_outcome]. change (retry_calls _ models mi c []) with (@nil event).
    destruct (json r) eqn:Hjson; done.
  - apply Forall_cons in Hall as [Ho Hall].
    rewrite returned_attempts_cons in Hatt. rewrite quota_failures_cons.
    destruct o as [r0| |msg]; simpl in Ho |- *.
    + destruct (json r0) eqn:Hjson; try done.
      rewrite IH by (simpl in *; (done || lia)).
      simpl. by rewrite <- app_assoc.
    + rewrite IH by (simpl in *; (done || lia)).
      simpl. by rewrite <- app_assoc.
    + destruct (quota_exhausted msg) eqn:Hq.
      * destruct (on_resource_exhausted_rotated models mi c
                    (quota_failures os) Hc) as (Hc1 & Hidx & Hcnt & _).
        pose proof (on_resource_exhausted_in_range models mi c Hmi) as Hmi1.
        destruct (on_resource_exhausted models mi c) as [mi1 c1].
        cbn [fst snd] in *.
        rewrite IH by (simpl in *; (done || lia)).
        rewrite Hidx, Hcnt. simpl. by rewrite <- app_assoc.
      * rewrite IH by (simpl in *; (done || lia)).
        simpl. by rewrite <- app_assoc.
Qed.

Lemma quota_failures_all msgs :
  Forall (λ msg, quota_exhausted msg = true) msgs →
  quota_failures (Raised <$> msgs) = length msgs.
Proof.
  induction 1 as [|msg msgs Hq _ IH]; [done|].
  rewrite fmap_cons, quota_failures_cons. simpl. by rewrite Hq, IH.
Qed.

(** The chapter-name loop over any number of quota failures below its
    limit, followed by a reply. *)
Lemma translate_chapter_name_loop_failures models name limit r tr :
  ∀ msgs attempts mi c w,
    (mi < length models)%nat → (c < 4)%nat →
    Forall (λ msg, quota_exhausted msg = true) msgs →
    (attempts + length msgs < limit)%nat →
    translate_chapter_name_loop models name limit
      ((Raised <$> msgs) ++ Reply r :: tr) attempts mi c w =
    Done (Some (text r), rotated_index models mi c (length msgs))
      {| fs := fs w; error_hadith_numbers := error_hadith_numbers w;
         events :=
           events w ++
           retry_calls (λ m o, EvTranslateChapter m name o) models mi c
             ((Raised <$> msgs) ++ [Reply r]) |}
      tr.
Proof.
  induction msgs as [|msg msgs IH]; intros attempts mi c w Hmi Hc Hall Hatt;
    destruct (lookup_lt_is_Some_2 models mi Hmi) as [model Hm];
    cbn [fmap list_fmap app];
    rewrite (retry_calls_cons _ _ _ _ _ _ model) by done;
    cbn [translate_chapter_name_loop];
    (destruct (Nat.leb_spec limit attempts) as [|_]; [simpl in *; lia|]);
    rewrite Hm.
  - cbn [length]. destruct (rotated_zero models mi c Hmi Hc) as [-> _].
    cbn [quota_outcome].
    by change (retry_calls _ models mi c []) with (@nil event).
  - apply Forall_cons in Hall as [Hq Hall]. cbn [quota_outcome]. rewrite Hq.
    destruct (on_resource_exhausted_rotated models mi c (length msgs) Hc)
      as (Hc1 & Hidx & _).
    pose proof (on_resource_exhausted_in_range models mi c Hmi) as Hmi1.
    destruct (on_resource_exhausted models mi c) as [mi1 c1].
    cbn [fst snd] in *.
    replace (list_fmap string outcome Raised msgs) with (Raised <$> msgs) by done.
    rewrite IH by (simpl in *; (done || lia)).
    rewrite Hidx. simpl. by rewrite <- app_assoc.
Qed.

(** C1, counterexample.  A quota failure, a timeout, then four quota
    failures in a row, then a reply.  The timeout does not reset the
    counter, so the four consecutive failures start from a counter of 1:
    the third of them rotates the model, the fourth is sent to the next
    model, and after them the counter is at 1, not at 0. *)
Lemma C1_four_consecutive_counterexample :
  hadith_retry_loop MODELS (make_translation_data (sample_hadith 1 1))
    [quota_error; TimeoutError; quota_error; quota_error; quota_error;
     quota_error; translated_reply 1] 0 0 0 empty_world =
  Done (PObject (sample_translated 1), 1%nat, 1%nat)
    {| fs := ∅; error_hadith_numbers := [];
       events :=
         [ EvTranslateHadith "gemini-2.0-flash"
             (make_translation_data (sample_hadith 1 1)) quota_error;
           EvTranslateHadith "gemini-2.0-flash"
             (make_translation_data (sample_hadith 1 1)) TimeoutError;
           EvTranslateHadith "gemini-2.0-flash"
             (make_translation_data (sample_hadith 1 1)) quota_error;
           EvTranslateHadith "gemini-2.0-flash"
             (make_translation_data (sample_hadith 1 1)) quota_error;
           EvTranslateHadith "gemini-2.0-flash"
             (make_translation_data (sample_hadith 1 1)) quota_error;
           EvTranslateHadith "gemini-2.0-flash-lite"
             (make_translation_data (sample_hadith 1 1)) quota_error;
           EvTranslateHadith "gemini-2.0-flash-lite"
             (make_translation_data (sample_hadith 1 1)) (translated_reply 1) ] |}
    [].
Proof. vm_compute. reflexivity. Qed.

(** C1, as the code has it.  In both retry loops a quota failure
    increments the counter, and when the counter reaches 4 the model index
    advances cyclically and the counter is reset to 0.  Nothing else
    changes them inside a loop: in the record loop a timeout, another
    error or an unparseable reply leaves both as they are.  So after any
    sequence of failed attempts with [q] quota failures among them, from
    index [mi] and a counter [c] below 4, the index is
    [(mi + (c + q) / 4) mod length models] and the counter
    [(c + q) mod 4], and every call has gone to the model the failures
    before it had led to.  Four quota failures in a row rotate the model
    exactly once; they leave the counter at 0 when it was 0 before them,
    as it is at the first attempt for every record. *)
Theorem C1_quota_rotation_rule models data name limit tr attempts mi c w
    os r msgs r' :
  (mi < length models)%nat → (c < 4)%nat →
  Forall (λ o, failed_attempt o = true) os →
  (attempts + returned_attempts os < 5)%nat →
  json r ≠ PNone →
  Forall (λ msg, quota_exhausted msg = true) msgs →
  (attempts + length msgs < limit)%nat →
  hadith_retry_loop models data (os ++ Reply r :: tr) attempts mi c w =
    Done (json r, rotated_index models mi c (quota_failures os),
          rotated_count c (quota_failures os))
      {| fs := fs w; error_hadith_numbers := error_hadith_numbers w;
         events :=
           events w ++
           retry_calls (λ m o, EvTranslateHadith m data o) models mi c
             (os ++ [Reply r]) |}
      tr
  ∧ translate_chapter_name_loop models name limit
      ((Raised <$> msgs) ++ Reply r' :: tr) attempts mi c w =
    Done (Some (text r'), rotated_index models mi c (length msgs))
      {| fs := fs w; error_hadith_numbers := error_hadith_numbers w;
         events :=
           events w ++
           retry_calls (λ m o, EvTranslateChapter m name o) models mi c
             ((Raised <$> msgs) ++ [Reply r']) |}
      tr.
Proof.
  intros Hmi Hc Hall Hatt Hr Hq Hlim. split.
  - by apply hadith_retry_loop_failures.
  - by apply translate_chapter_name_loop_failures.
Qed.

Lemma C1_quota_rotation_rule_witness :
  hadith_retry_loop MODELS (make_translation_data (sample_hadith 1 1))
    [quota_error; quota_error; quota_error; quota_error; translated_reply 1]
    0 0 0 empty_world =
    Done (PObject (sample_translated 1), 1%nat, 0%nat)
      {| fs := ∅; error_hadith_numbers := [];
         events :=
           [ EvTranslateHadith "gemini-2.0-flash"
               (make_translation_data (sample_hadith 1 1)) quota_error;
             EvTranslateHadith "gemini-2.0-flash"
               (make_translation_data (sample_hadith 1 1)) quota_error;
             EvTranslateHadith "gemini-2.0-flash"
               (make_translation_data (sample_hadith 1 1)) quota_error;
             EvTranslateHadith "gemini-2.0-flash"
               (make_translation_data (sample_hadith 1 1)) quota_error;
             EvTranslateHadith "gemini-2.0-flash-lite"
               (make_translation_data (sample_hadith 1 1))
               (translated_reply 1) ] |}
      []
  ∧ translate_chapter_name_loop MODELS "Revelation" 20
      [quota_error; quota_error; quota_error; quota_error; name_reply "Wahyu"]
      0 0 0 empty_world =
    Done (Some "Wahyu", 1%nat)
      {| fs := ∅; error_hadith_numbers := [];
         events :=
           [ EvTranslateChapter "gemini-2.0-flash" "Revelation" quota_error;
             EvTranslateChapter "gemini-2.0-flash" "Revelation" quota_error;
             EvTranslateChapter "gemini-2.0-flash" "Revelation" quota_error;
             EvTranslateChapter "gemini-2.0-flash" "Revelation" quota_error;
             EvTranslateChapter "gemini-2.0-flash-lite" "Revelation"
               (name_reply "Wahyu") ] |}
      [].
Proof.
  apply (C1_quota_rotation_rule MODELS
           (make_translation_data (sample_hadith 1 1)) "Revelation" 20 []
           0 0 0 empty_world
           [quota_error; quota_error; quota_error; quota_error]
           {| text := "{...}"; json := PObject (sample_translated 1) |}
           [ "429 RESOURCE_EXHAUSTED. Quota exceeded.";
             "429 RESOURCE_EXHAUSTED. Quota exceeded.";
             "429 RESOURCE_EXHAUSTED. Quota exceeded.";
             "429 RESOURCE_EXHAUSTED. Quota exceeded." ]
           {| text := "Wahyu"; json := PNone |}).
  - simpl. lia.
  - lia.
  - repeat constructor.
  - vm_compute. lia.
  - done.
  - repeat constructor.
  - simpl. lia.
Defined.

(** ** Retry ceilings (C2) *)

(** The record loop from any state: the replies it consumes, with the
    attempts already counted, never exceed 5; it makes one call per outcome
    consumed; and it ends as soon as the oracle holds enough replies. *)
Lemma hadith_retry_loop_bound models data tr :
  ∀ attempts mi c w,
    (mi < length models)%nat → (attempts ≤ 5)%nat →
    ∃ evs,
      events (world_of (hadith_retry_loop models data tr attempts mi c w)) =
        events w ++ evs
      ∧ (returned_attempts (calls evs) + attempts ≤ 5)%nat
      ∧ (length (calls evs) ≤ length tr)%nat
      ∧ ((5 ≤ returned_attempts tr + attempts)%nat →
         finished (hadith_retry_loop models data tr attempts mi c w) = true).
Proof.
  induction tr as [|o tr IH]; intros attempts mi c w Hmi Hatt;
    cbn [hadith_retry_loop];
    destruct (Nat.leb_spec 5 attempts) as [H5|H5];
    try (exists []; rewrite app_nil_r, calls_nil, returned_attempts_nil; simpl;
         repeat split; auto with lia; fail).
  - destruct (lookup_lt_is_Some_2 models mi Hmi) as [model ->].
    exists []. rewrite app_nil_r, calls_nil, returned_attempts_nil. simpl.
    repeat split; auto with lia.
  - destruct (lookup_lt_is_Some_2 models mi Hmi) as [model ->].
    rewrite returned_attempts_cons.
    destruct o as [r| |msg]; [destruct (json r) eqn:Hjson| |
      destruct (quota_exhausted msg);
        [pose proof (on_resource_exhausted_in_range models mi c Hmi) as Hin;
         destruct (on_resource_exhausted models mi c) as [mi' c']|]].
    all: try (eexists [_]; split; [reflexivity|];
              rewrite calls_cons; simpl outcome_of; cbv iota;
              rewrite calls_nil, returned_attempts_cons, returned_attempts_nil;
              simpl; repeat split; auto with lia; fail).
    all: match goal with
         | |- context [hadith_retry_loop _ _ _ ?a ?m ?k ?w'] =>
           destruct (IH a m k w') as (evs & Hev & Hret & Hlen & Hfin);
             [simpl in *; lia|lia|]
         end.
    all: eexists (_ :: evs);
      (split; [rewrite Hev, events_log_app; reflexivity|]);
      rewrite calls_cons; simpl outcome_of; cbv iota;
      rewrite returned_attempts_cons; simpl; repeat split; auto with lia.
Qed.

(** The chapter-name loop from any state: every iteration that goes on
    counts as an attempt, so the calls made and the attempts already
    counted never exceed the limit, and the loop ends once the oracle holds
    that many outcomes. *)
Lemma translate_chapter_name_loop_bound models name limit tr :
  ∀ attempts mi c w,
    (attempts ≤ limit)%nat →
    ∃ evs,
      events (world_of
                (translate_chapter_name_loop models name limit tr attempts mi c w)) =
        events w ++ evs
      ∧ (length (calls evs) + attempts ≤ limit)%nat
      ∧ (length (calls evs) ≤ length tr)%nat
      ∧ ((limit ≤ length tr + attempts)%nat →
         finished
           (translate_chapter_name_loop models name limit tr attempts mi c w) =
         true).
Proof.
  induction tr as [|o tr IH]; intros attempts mi c w Hatt;
    cbn [translate_chapter_name_loop];
    destruct (Nat.leb_spec limit attempts) as [Hl|Hl];
    try destruct (models !! mi) as [model|];
    try (exists []; rewrite app_nil_r, calls_nil; simpl;
         repeat split; auto with lia; fail).
  destruct o as [r| |msg];
    [| |destruct (quota_exhausted msg);
        [destruct (on_resource_exhausted models mi c) as [mi' c']|]].
  all: try (eexists [_]; split; [reflexivity|];
            rewrite calls_cons; simpl outcome_of; cbv iota;
            rewrite calls_nil; simpl; repeat split; auto with lia; fail).
  destruct (IH (S attempts) mi' c'
              (log (EvTranslateChapter model name (Raised msg)) w))
    as (evs & Hev & Hlen & Hcalls & Hfin); [lia|].
  eexists (_ :: evs).
  split; [rewrite Hev, events_log_app; reflexivity|].
  rewrite calls_cons; simpl outcome_of; cbv iota; simpl.
  repeat split; auto with lia.
Qed.

(** Timeouts are retried without being counted: however many there are,
    the record loop calls the endpoint for each and is still waiting. *)
Lemma hadith_retry_loop_timeouts models data n :
  ∀ attempts mi c w model,
    models !! mi = Some model → (attempts < 5)%nat →
    hadith_retry_loop models data (replicate n TimeoutError) attempts mi c w =
    Pending
      {| fs := fs w; error_hadith_numbers := error_hadith_numbers w;
         events :=
           events w ++ replicate n (EvTranslateHadith model data TimeoutError) |}.
Proof.
  induction n as [|n IH]; intros attempts mi c w model Hm Ha;
    cbn [replicate hadith_retry_loop];
    destruct (Nat.leb_spec 5 attempts) as [|_]; try lia; rewrite Hm.
  - rewrite app_nil_r. by destruct w.
  - rewrite (IH _ _ _ _ model) by done. simpl. by rewrite <- app_assoc.
Qed.

(** What the two loops do bound.  The record loop counts the attempts
    that come back with a reply: at most 5 of them are made, and the loop
    ends once the endpoint has replied 5 times.  The chapter-name loop
    makes at most 20 calls, and ends once the endpoint has given 20
    outcomes. *)
Lemma retry_loops_ceilings models data name tr mi c w :
  (mi < length models)%nat →
  (∃ evs,
     events (world_of (hadith_retry_loop models data tr 0 mi c w)) =
       events w ++ evs
     ∧ (returned_attempts (calls evs) ≤ 5)%nat
     ∧ ((5 ≤ returned_attempts tr)%nat →
        finished (hadith_retry_loop models data tr 0 mi c w) = true))
  ∧ (∃ evs,
       events (world_of (translate_chapter_name models name mi c w tr)) =
         events w ++ evs
       ∧ (length (calls evs) ≤ 20)%nat
       ∧ ((20 ≤ length tr)%nat →
          finished (translate_chapter_name models name mi c w tr) = true)).
Proof.
  intros Hmi. split.
  - destruct (hadith_retry_loop_bound models data tr 0 mi c w)
      as (evs & Hev & Hret & _ & Hfin); [done|lia|].
    exists evs. repeat split; auto with lia.
  - unfold translate_chapter_name.
    destruct (translate_chapter_name_loop_bound models name 20 tr 0 mi c w)
      as (evs & Hev & Hlen & _ & Hfin); [lia|].
    exists evs. repeat split; auto with lia.
Qed.

(** C2, at a failing input.  The endpoint times out on every call for a
    record.  After six calls the record loop has counted no attempt and
    has not declared the record failed; it is waiting for a seventh
    answer.  The chapter-name loop, given the same six outcomes with quota
    failures in place of timeouts, counts each of them. *)
Theorem C2_record_retry_unbounded :
  hadith_retry_loop MODELS (make_translation_data (sample_hadith 1 1))
    (replicate 6 TimeoutError) 0 0 0 empty_world =
  Pending
    {| fs := ∅; error_hadith_numbers := [];
       events :=
         replicate 6
           (EvTranslateHadith "gemini-2.0-flash"
              (make_translation_data (sample_hadith 1 1)) TimeoutError) |}
  ∧ length
      (calls (events (world_of
         (hadith_retry_loop MODELS (make_translation_data (sample_hadith 1 1))
            (replicate 6 TimeoutError) 0 0 0 empty_world)))) = 6%nat
  ∧ finished
      (translate_chapter_name MODELS "Revelation" 0 0 empty_world
         (replicate 20 quota_error ++ [name_reply "Wahyu"])) = true
  ∧ length
      (calls (events (world_of
         (translate_chapter_name MODELS "Revelation" 0 0 empty_world
            (replicate 20 quota_error ++ [name_reply "Wahyu"]))))) = 20%nat.
Proof. repeat split; vm_compute; reflexivity. Qed.

(** ** Timeouts (C3) *)




(** ** What every run of the loops looks like *)

Lemma rotation_path_app models i evs1 j evs2 k :
  rotation_path models i evs1 j → rotation_path models j evs2 k →
  rotation_path models i (evs1 ++ evs2) k.
Proof.
  induction 1; intros; simpl; eauto using rotation_path.
Qed.

Lemma rotation_path_quota_step models i c e evs j model msg :
  models !! i = Some model → model_of e = Some model →
  outcome_of e = Some (Raised msg) → quota_exhausted msg = true →
  rotation_path models (on_resource_exhausted models i c).1 evs j →
  rotation_path models i (e :: evs) j.
Proof.
  intros Hm He Ho Hq. unfold on_resource_exhausted.
  destruct (4 <=? S c)%nat; simpl; eauto using rotation_path.
Qed.

(** The record loop: it only calls the endpoint, always for the same
    record, at the models the rotation rule gives; it touches neither the
    disk nor the error list; and it cannot end a fresh record without a
    call. *)
Lemma hadith_retry_loop_run models data tr :
  ∀ attempts mi c w,
    ∃ evs mi',
      events (world_of (hadith_retry_loop models data tr attempts mi c w)) =
        events w ++ evs
      ∧ fs (world_of (hadith_retry_loop models data tr attempts mi c w)) = fs w
      ∧ error_hadith_numbers
          (world_of (hadith_retry_loop models data tr attempts mi c w)) =
        error_hadith_numbers w
      ∧ Forall (hadith_call_of data) evs
      ∧ rotation_path models mi evs mi'
      ∧ (∀ v mi2 c2 w' tr',
           hadith_retry_loop models data tr attempts mi c w =
             Done (v, mi2, c2) w' tr' →
           mi2 = mi' ∧ ((attempts < 5)%nat → evs ≠ [])).
Proof.
  induction tr as [|o tr IH]; intros attempts mi c w;
    cbn [hadith_retry_loop];
    destruct (Nat.leb_spec 5 attempts) as [H5|H5];
    try destruct (models !! mi) as [model|] eqn:Hm;
    try (exists [], mi; rewrite app_nil_r; simpl;
         repeat split; try constructor; try congruence; try lia; fail).
  assert (Hcall : ∀ o, hadith_call_of data (EvTranslateHadith model data o))
    by (intros; eexists _, _; reflexivity).
  destruct o as [r| |msg]; [destruct (json r) eqn:Hjson| |
    destruct (quota_exhausted msg) eqn:Hq;
      [destruct (on_resource_exhausted models mi c) as [mi1 c1] eqn:Hex|]].
  all: try (eexists [_], mi; simpl; repeat split;
            [by repeat constructor | by eapply rp_stay; eauto using rotation_path
            | congruence | done]).
  all: match goal with
       | |- context [hadith_retry_loop _ _ _ ?a ?m ?k ?w'] =>
         destruct (IH a m k w') as (evs & mi' & Hev & Hfs & Herr & Hall & Hrp & Hd)
       end.
  all: eexists (_ :: evs), mi';
    (split; [rewrite Hev, events_log_app; reflexivity|]);
    (split; [by rewrite Hfs|]); (split; [by rewrite Herr|]);
    (split; [by constructor|]);
    (split; [|intros v mi2 c2 w' tr' Heq; split; [eapply Hd; eauto|done]]).
  - eapply rp_stay; eauto.
  - eapply rp_stay; eauto.
  - eapply rotation_path_quota_step; eauto. by rewrite Hex.
  - eapply rp_stay; eauto.
Qed.

Lemma rotation_path_in_range models i evs j :
  rotation_path models i evs j →
  (i < length models)%nat → (j < length models)%nat.
Proof.
  induction 1; intros; auto.
  apply IHrotation_path, Nat.mod_upper_bound. lia.
Qed.

(** The chapter-name loop: it only calls the endpoint, always for the same
    name, at the models the rotation rule gives; it touches neither the
    disk nor the error list, and raises nothing. *)
Lemma translate_chapter_name_loop_run models name limit tr :
  ∀ attempts mi c w,
    ∃ evs mi',
      events (world_of
                (translate_chapter_name_loop models name limit tr attempts mi c w)) =
        events w ++ evs
      ∧ fs (world_of
              (translate_chapter_name_loop models name limit tr attempts mi c w)) =
        fs w
      ∧ error_hadith_numbers
          (world_of
             (translate_chapter_name_loop models name limit tr attempts mi c w)) =
        error_hadith_numbers w
      ∧ Forall (chapter_call_of name) evs
      ∧ rotation_path models mi evs mi'
      ∧ raises (translate_chapter_name_loop models name limit tr attempts mi c w) =
        false
      ∧ (∀ res mi2 w' tr',
           translate_chapter_name_loop models name limit tr attempts mi c w =
             Done (res, mi2) w' tr' →
           mi2 = mi'
           ∧ ((attempts < limit)%nat → (mi < length models)%nat → evs ≠ [])).
Proof.
  induction tr as [|o tr IH]; intros attempts mi c w;
    cbn [translate_chapter_name_loop];
    destruct (Nat.leb_spec limit attempts) as [Hl|Hl];
    try destruct (models !! mi) as [model|] eqn:Hm;
    try (exists [], mi; rewrite app_nil_r; simpl;
         repeat split; try constructor; try congruence; try lia;
         intros; apply lookup_ge_None in Hm; lia).
  assert (Hcall : ∀ o, chapter_call_of name (EvTranslateChapter model name o))
    by (intros; eexists _, _; reflexivity).
  destruct o as [r| |msg]; [| |
    destruct (quota_exhausted msg) eqn:Hq;
      [destruct (on_resource_exhausted models mi c) as [mi1 c1] eqn:Hex|]].
  all: try (eexists [_], mi; simpl; repeat split;
            [by repeat constructor | by eapply rp_stay; eauto using rotation_path
            | congruence | done]).
  destruct (IH (S attempts) mi1 c1
              (log (EvTranslateChapter model name (Raised msg)) w))
    as (evs & mi' & Hev & Hfs & Herr & Hall & Hrp & Hr & Hd).
  eexists (_ :: evs), mi'.
  split; [rewrite Hev, events_log_app; reflexivity|].
  split; [by rewrite Hfs|]. split; [by rewrite Herr|].
  split; [by constructor|].
  split; [eapply rotation_path_quota_step; eauto; by rewrite Hex|].
  split; [done|].
  intros res mi2 w' tr' Heq. split; [eapply Hd; eauto|done].
Qed.

Lemma hadith_retry_loop_no_raise models data tr :
  ∀ attempts mi c w,
    raises (hadith_retry_loop models data tr attempts mi c w) = false.
Proof.
  induction tr as [|o tr IH]; intros; cbn [hadith_retry_loop];
    repeat case_match; auto.
Qed.

(** When the record loop hands back a value other than [None], its last
    call came back with a reply that parses to that value. *)
Lemma hadith_retry_loop_result models data tr :
  ∀ attempts mi c w v mi2 c2 w' tr',
    hadith_retry_loop models data tr attempts mi c w = Done (v, mi2, c2) w' tr' →
    v ≠ PNone →
    ∃ evs e, events w' = events w ++ evs ++ [e] ∧ reply_of v e.
Proof.
  induction tr as [|o tr IH]; intros attempts mi c w v mi2 c2 w' tr';
    cbn [hadith_retry_loop];
    destruct (5 <=? attempts)%nat; try (intros [= <- <- <- <- <-]; done);
    destruct (models !! mi) as [model|]; try done.
  assert (Hgo : ∀ a m k o',
    hadith_retry_loop models data tr a m k
      (log (EvTranslateHadith model data o') w) = Done (v, mi2, c2) w' tr' →
    v ≠ PNone →
    ∃ evs e, events w' = events w ++ evs ++ [e] ∧ reply_of v e).
  { intros a m k o' Heq Hv.
    destruct (IH _ _ _ _ _ _ _ _ _ Heq Hv) as (evs & e & Hev & He).
    exists (EvTranslateHadith model data o' :: evs), e.
    split; [|done]. rewrite Hev. simpl. by rewrite <- app_assoc. }
  destruct o as [r| |msg]; [destruct (json r) eqn:Hjson| |
    destruct (quota_exhausted msg);
      [destruct (on_resource_exhausted models mi c)|]]; eauto.
  all: intros [= <- <- <- <- <-] _;
    exists [], (EvTranslateHadith model data (Reply r));
    (split; [done|]); by exists model, data, r.
Qed.

Lemma hadith_call_among_mono hs hs' e :
  hs ⊆ hs' → hadith_call_among hs e → hadith_call_among hs' e.
Proof. intros Hsub (h & Hin & Hc). exists h. auto. Qed.

Lemma submitted_app evs1 evs2 :
  submitted (evs1 ++ evs2) = submitted evs1 ++ submitted evs2.
Proof. apply omap_app. Qed.

Lemma hadith_call_submitted data evs :
  Forall (hadith_call_of data) evs → evs ≠ [] → data ∈ submitted evs.
Proof.
  intros Hall Hne. destruct Hall as [|e evs (model & o & ->) _]; [done|].
  simpl. left.
Qed.

Lemma submitted_hadith_call_among hs evs d :
  Forall (hadith_call_among hs) evs → d ∈ submitted evs →
  ∃ h, h ∈ hs ∧ d = make_translation_data h.
Proof.
  induction 1 as [|e evs (h & Hin & model & o & ->) _ IH]; simpl.
  - by intros ?%elem_of_nil.
  - intros [->|Hd]%elem_of_cons; eauto.
Qed.

(** The [for] loop of [process_hadiths]: every call is for a record of the
    work list; the disk is not touched; the counter that comes back is 0
    as soon as the list has a record; the loop raises only on a reply that
    parses to a truthy value that is no object; and when the loop ends,
    every record of the list has been sent. *)
Lemma process_hadiths_loop_run models hs :
  ∀ acc succ mi c w tr,
    ∃ evs mi',
      events (world_of (process_hadiths_loop models hs acc succ mi c w tr)) =
        events w ++ evs
      ∧ fs (world_of (process_hadiths_loop models hs acc succ mi c w tr)) = fs w
      ∧ Forall (hadith_call_among hs) evs
      ∧ rotation_path models mi evs mi'
      ∧ (raises (process_hadiths_loop models hs acc succ mi c w tr) = true →
         Exists (reply_of PTruthy) evs)
      ∧ (∀ acc2 succ2 mi2 c2 w' tr',
           process_hadiths_loop models hs acc succ mi c w tr =
             Done (acc2, succ2, mi2, c2) w' tr' →
           mi2 = mi'
           ∧ c2 = (if hs is [] then c else 0%nat)
           ∧ (∀ h, h ∈ hs → make_translation_data h ∈ submitted evs)).
Proof.
  induction hs as [|h hs IH]; intros acc succ mi c w tr;
    cbn [process_hadiths_loop].
  { exists [], mi. rewrite app_nil_r. simpl.
    repeat split; try constructor; try congruence.
    by intros ? ?%elem_of_nil. }
  destruct (hadith_retry_loop_run models (make_translation_data h) tr 0 mi c w)
    as (evs1 & mi1 & Hev1 & Hfs1 & Herr1 & Hall1 & Hrp1 & Hd1).
  assert (Hall1' : Forall (hadith_call_among (h :: hs)) evs1).
  { eapply Forall_impl; [exact Hall1|]. intros e He. exists h. split; [left|done]. }
  pose proof (hadith_retry_loop_no_raise models (make_translation_data h) tr
                0 mi c w) as Hnr.
  pose proof (hadith_retry_loop_result models (make_translation_data h) tr
                0 mi c w) as Hres.
  destruct (hadith_retry_loop models (make_translation_data h) tr 0 mi c w)
    as [[[v mi2] c2] w1 tr1| | | |] eqn:Hloop; simpl in *;
    try (exists evs1, mi1; repeat split; auto; congruence).
  destruct (Hd1 _ _ _ _ _ eq_refl) as [-> Hne]. specialize (Hne ltac:(lia)).
  pose proof (hadith_call_submitted _ _ Hall1 Hne) as Hsub1.
  assert (Hgen : ∀ acc' succ' w1',
    events w1' = events w1 → fs w1' = fs w1 →
    ∃ evs mi',
      events (world_of (process_hadiths_loop models hs acc' succ' mi1 0 w1' tr1)) =
        events w ++ evs
      ∧ fs (world_of (process_hadiths_loop models hs acc' succ' mi1 0 w1' tr1)) =
        fs w
      ∧ Forall (hadith_call_among (h :: hs)) evs
      ∧ rotation_path models mi evs mi'
      ∧ (raises (process_hadiths_loop models hs acc' succ' mi1 0 w1' tr1) = true →
         Exists (reply_of PTruthy) evs)
      ∧ (∀ acc2 succ2 mi2 c2 w' tr',
           process_hadiths_loop models hs acc' succ' mi1 0 w1' tr1 =
             Done (acc2, succ2, mi2, c2) w' tr' →
           mi2 = mi' ∧ c2 = 0%nat
           ∧ (∀ h', h' ∈ h :: hs → make_translation_data h' ∈ submitted evs))).
  { intros acc' succ' w1' Hevw Hfsw.
    destruct (IH acc' succ' mi1 0%nat w1' tr1)
      as (evs2 & mi' & Hev2 & Hfs2 & Hall2 & Hrp2 & Hr2 & Hd2).
    exists (evs1 ++ evs2), mi'.
    split; [by rewrite Hev2, Hevw, Hev1, app_assoc|].
    split; [by rewrite Hfs2, Hfsw, Hfs1|].
    split.
    { apply Forall_app. split; [done|].
      eapply Forall_impl; [exact Hall2|]. intros e.
      apply hadith_call_among_mono. intros x Hx. by right. }
    split; [by eapply rotation_path_app|].
    split; [intros Hr; apply Exists_app; right; auto|].
    intros acc3 succ3 mi3 c3 w' tr' Heq.
    destruct (Hd2 _ _ _ _ _ _ Heq) as (-> & -> & Hsub2).
    split; [done|]. split; [by destruct hs|].
    intros h' [->|Hin]%elem_of_cons; rewrite submitted_app, elem_of_app; auto. }
  destruct v; try (apply Hgen; done).
  (* a truthy value that is no object: line 284 raises *)
  exists evs1, mi1. simpl. do 4 (split; [done|]).
  split; [|done]. intros _.
  destruct (Hres _ _ _ _ _ eq_refl ltac:(done)) as (evs & e & Hev & He).
  rewrite Hev1 in Hev. apply app_inv_head in Hev. subst evs1.
  apply Exists_app. right. by constructor.
Qed.

(** [process_hadiths]: the same, for the records of [all_hadiths_data]
    that belong to the chapter. *)
Lemma process_hadiths_run models chapter_id all mi c w tr :
  let hs := filter (λ h, h_chapterId h = chapter_id) all in
  ∃ evs mi',
    events (world_of (process_hadiths models chapter_id all mi c w tr)) =
      events w ++ evs
    ∧ fs (world_of (process_hadiths models chapter_id all mi c w tr)) = fs w
    ∧ Forall (hadith_call_among hs) evs
    ∧ writes evs = []
    ∧ rotation_path models mi evs mi'
    ∧ (raises (process_hadiths models chapter_id all mi c w tr) = true →
       Exists (reply_of PTruthy) evs)
    ∧ (∀ res mi2 c2 w' tr',
         process_hadiths models chapter_id all mi c w tr =
           Done (res, mi2, c2) w' tr' →
         mi2 = mi'
         ∧ c2 = (if hs is [] then c else 0%nat)
         ∧ (∀ h, h ∈ hs → make_translation_data h ∈ submitted evs)).
Proof.
  intros hs. unfold process_hadiths. fold hs.
  destruct (process_hadiths_loop_run models hs [] 0 mi c w tr)
    as (evs & mi' & Hev & Hfs & Hall & Hrp & Hr & Hd).
  exists evs, mi'.
  assert (Hw : writes evs = []).
  { clear -Hall. induction Hall as [|e evs (h & _ & model & o & ->) _ IH];
      [done|exact IH]. }
  destruct (process_hadiths_loop models hs [] 0 mi c w tr)
    as [[[[acc succ] mi2] c2] w1 tr1| | | |]; simpl in *;
    try (repeat split; auto; congruence).
  destruct (Hd _ _ _ _ _ _ eq_refl) as (-> & -> & Hsub).
  destruct (succ =? 0)%nat; simpl; repeat split; auto; congruence.
Qed.

(** The translations [process_hadiths] hands back come from replies of
    this run: each carries the identifier of an object the endpoint
    returned. *)
Lemma process_hadiths_loop_provenance models hs :
  ∀ acc succ mi c w tr acc2 succ2 mi2 c2 w' tr',
    process_hadiths_loop models hs acc succ mi c w tr =
      Done (acc2, succ2, mi2, c2) w' tr' →
    ∃ evs new,
      events w' = events w ++ evs ∧ acc2 = acc ++ new
      ∧ Forall (λ t, ∃ t0, t_id t = t_id t0
                           ∧ Exists (reply_of (PObject t0)) evs) new.
Proof.
  induction hs as [|h hs IH]; intros acc succ mi c w tr acc2 succ2 mi2 c2 w' tr';
    cbn [process_hadiths_loop].
  { intros [= <- <- <- <- <- <-]. exists [], [].
    by rewrite !app_nil_r. }
  pose proof (hadith_retry_loop_result models (make_translation_data h) tr
                0 mi c w) as Hres.
  destruct (hadith_retry_loop_run models (make_translation_data h) tr 0 mi c w)
    as (evs1 & mi1 & Hev1 & _).
  destruct (hadith_retry_loop models (make_translation_data h) tr 0 mi c w)
    as [[[v mi3] c3] w1 tr1| | | |]; simpl in *; try done.
  assert (Hgo : ∀ acc' succ' w1',
    events w1' = events w1 →
    process_hadiths_loop models hs acc' succ' mi3 0 w1' tr1 =
      Done (acc2, succ2, mi2, c2) w' tr' →
    ∃ evs new,
      events w' = events w ++ evs ∧ acc2 = acc' ++ new
      ∧ Forall (λ t, ∃ t0, t_id t = t_id t0
                           ∧ Exists (reply_of (PObject t0)) evs) new).
  { intros acc' succ' w1' Hw1 Heq.
    destruct (IH _ _ _ _ _ _ _ _ _ _ _ _ Heq) as (evs2 & new & Hev2 & -> & Hnew).
    exists (evs1 ++ evs2), new.
    split; [by rewrite Hev2, Hw1, Hev1, app_assoc|]. split; [done|].
    eapply Forall_impl; [exact Hnew|]. intros t (t0 & Hid & Hex).
    exists t0. split; [done|]. apply Exists_app. by right. }
  destruct v as [| | |t0]; try done; try (by apply Hgo).
  intros Heq.
  destruct (Hres _ _ _ _ _ eq_refl ltac:(done)) as (evs & e & Hev & He).
  rewrite Hev1 in Hev. apply app_inv_head in Hev. subst evs1.
  destruct (IH _ _ _ _ _ _ _ _ _ _ _ _ Heq) as (evs2 & new & Hev2 & -> & Hnew).
  exists ((evs ++ [e]) ++ evs2), (set_arabic_text t0 (h_arabic h) :: new).
  split; [by rewrite Hev2, Hev1, <- !app_assoc|].
  split; [by rewrite <- app_assoc|].
  constructor.
  - exists t0. split; [done|].
    apply Exists_app. left. apply Exists_app. right. by constructor.
  - eapply Forall_impl; [exact Hnew|]. intros t (t1 & Hid & Hex).
    exists t1. split; [done|]. apply Exists_app. by right.
Qed.

Lemma process_hadiths_provenance models chapter_id all mi c w tr new mi2 c2 w' tr' :
  process_hadiths models chapter_id all mi c w tr =
    Done (Some new, mi2, c2) w' tr' →
  ∃ evs,
    events w' = events w ++ evs
    ∧ Forall (λ t, ∃ t0, t_id t = t_id t0
                         ∧ Exists (reply_of (PObject t0)) evs) new.
Proof.
  unfold process_hadiths.
  pose proof (process_hadiths_loop_provenance models
                (filter (λ h, h_chapterId h = chapter_id) all) [] 0 mi c w tr)
    as Hp.
  destruct (process_hadiths_loop models _ [] 0 mi c w tr)
    as [[[[acc succ] mi3] c3] w1 tr1| | | |]; simpl; try done.
  destruct (Hp _ _ _ _ _ _ eq_refl) as (evs & new' & Hev & -> & Hnew).
  destruct (succ =? 0)%nat; intros [= <- <- <- <- <-]. by exists evs.
Qed.

(** ** Resume: only the missing records are sent (C4) *)

Lemma elem_of_missing_hadiths existing hs h :
  h ∈ missing_hadiths existing hs ↔
  (IdInt (h_id h) ∉ t_id <$> existing) ∧ h ∈ hs.
Proof.
  unfold missing_hadiths. rewrite list_elem_of_filter.
  by rewrite elem_of_list_to_set.
Qed.

Lemma filter_chapter_missing chapter_id existing all :
  filter (λ h, h_chapterId h = chapter_id)
    (missing_hadiths existing (filter (λ h, h_chapterId h = chapter_id) all)) =
  missing_hadiths existing (filter (λ h, h_chapterId h = chapter_id) all).
Proof.
  unfold missing_hadiths.
  rewrite (list_filter_filter (λ h, IdInt (h_id h) ∉ _) (λ h, h_chapterId h = _)).
  apply list_filter_filter_r. by intros h [_ ?].
Qed.

Lemma rotation_path_snoc_write models i evs j p :
  rotation_path models i evs j → rotation_path models i (evs ++ [EvWrite p]) j.
Proof.
  intros H. eapply rotation_path_app; [exact H|]. eauto using rotation_path.
Qed.

Lemma submitted_snoc_write evs p : submitted (evs ++ [EvWrite p]) = submitted evs.
Proof. rewrite submitted_app. simpl. apply app_nil_r. Qed.

Lemma forallb_false_Exists {A} (f : A → bool) l :
  forallb f l = false → Exists (λ x, f x = false) l.
Proof.
  induction l as [|x l IH]; [done|]. simpl.
  destruct (f x) eqn:Hx; [|by left]. intros H. right. auto.
Qed.

(** One chapter of the second loop of [process_book]: the calls are for
    the records of the work list, at the models the rotation rule gives;
    the only file that can change is the chapter's own; when the step
    ends, every record of the work list has been sent.  The step raises
    in three cases only: the chapter's file is decodable but of a shape
    the script does not read; a record in it has an identifier [int]
    rejects; or the endpoint has given a reply the script cannot
    handle. *)
Lemma process_chapter_run models book_name all c mi cnt w tr :
  let path := chapter_path book_name (c_id c) in
  let todo := work_list book_name all c w in
  ∃ evs mi',
    events (world_of (process_chapter models book_name all c mi cnt w tr)) =
      events w ++ evs
    ∧ Forall (chapter_event_of path todo) evs
    ∧ rotation_path models mi evs mi'
    ∧ (∀ p, p ≠ path →
         fs (world_of (process_chapter models book_name all c mi cnt w tr)) !! p =
         fs w !! p)
    ∧ (raises (process_chapter models book_name all c mi cnt w tr) = true →
       (∃ f, fs w !! path = Some f
             ∧ (load_existing_hadiths f = None
                ∨ ∃ existing, load_existing_hadiths f = Some existing
                              ∧ Exists (λ t, has_int_id t = false) existing))
       ∨ Exists unusable_reply evs)
    ∧ (∀ mi2 c2 w' tr',
         process_chapter models book_name all c mi cnt w tr =
           Done (mi2, c2) w' tr' →
         mi2 = mi'
         ∧ c2 = (if todo is [] then cnt else 0%nat)
         ∧ (∀ h, h ∈ todo → make_translation_data h ∈ submitted evs)).
Proof.
  intros path todo. subst todo. unfold process_chapter, work_list. fold path.
  set (hs := filter (λ h, h_chapterId h = c_id c) all).
  assert (Hstep : ∀ (todo : list hadith) (content : list translated → file)
                    (guard : list translated → bool),
    filter (λ h, h_chapterId h = c_id c) todo = todo →
    let r :=
      bind (process_hadiths models (c_id c) todo mi cnt w tr)
        (λ '(res, mi1, c1) w' tr',
           match res with
           | Some (t :: l) =>
             if guard (t :: l)
             then Done (mi1, c1) (write path (content (t :: l)) w') tr'
             else Raise UncaughtError w'
           | _ => Done (mi1, c1) w' tr'
           end) in
    ∃ evs mi',
      events (world_of r) = events w ++ evs
      ∧ Forall (chapter_event_of path todo) evs
      ∧ rotation_path models mi evs mi'
      ∧ (∀ p, p ≠ path → fs (world_of r) !! p = fs w !! p)
      ∧ (raises r = true →
         Exists (reply_of PTruthy) evs
         ∨ ∃ new, guard new = false
                  ∧ Forall (λ t, ∃ t0, t_id t = t_id t0
                                       ∧ Exists (reply_of (PObject t0)) evs) new)
      ∧ (∀ mi2 c2 w' tr', r = Done (mi2, c2) w' tr' →
         mi2 = mi' ∧ c2 = (if todo is [] then cnt else 0%nat)
         ∧ (∀ h, h ∈ todo → make_translation_data h ∈ submitted evs))).
  { intros todo content guard Hfilter r. subst r.
    destruct (process_hadiths_run models (c_id c) todo mi cnt w tr)
      as (evs & mi' & Hev & Hfs & Hall & _ & Hrp & Hr & Hd).
    rewrite Hfilter in Hall, Hd.
    assert (Hall' : Forall (chapter_event_of path todo) evs).
    { eapply Forall_impl; [exact Hall|]. intros e He. by left. }
    pose proof (process_hadiths_provenance models (c_id c) todo mi cnt w tr)
      as Hprov.
    destruct (process_hadiths models (c_id c) todo mi cnt w tr)
      as [[[res mi1] c1] w1 tr1| | | |]; simpl in *;
      try (exists evs, mi'; repeat split; auto; try congruence;
           intros; by rewrite Hfs).
    destruct (Hd _ _ _ _ _ eq_refl) as (-> & -> & Hsub).
    destruct res as [[|t l]|]; simpl;
      try (exists evs, mi'; repeat split; auto; try congruence;
           intros; by rewrite Hfs).
    destruct (Hprov _ _ _ _ _ eq_refl) as (evs' & Hev' & Hnew).
    rewrite Hev in Hev'. apply app_inv_head in Hev'. subst evs'.
    destruct (guard (t :: l)) eqn:Hguard; simpl.
    - exists (evs ++ [EvWrite path]), mi'. simpl.
      split; [by rewrite Hev, app_assoc|].
      split; [apply Forall_app; split; [done|]; repeat constructor; by right|].
      split; [by apply rotation_path_snoc_write|].
      split; [intros p Hp; by rewrite lookup_insert_ne, Hfs|].
      split; [done|].
      intros mi2 c2 w' tr' [= <- <- <- <-].
      rewrite submitted_snoc_write. auto.
    - exists evs, mi'. do 3 (split; [done|]).
      split; [intros; by rewrite Hfs|].
      split; [|done]. intros _. right. by exists (t :: l). }
  destruct (fs w !! path) as [f|] eqn:Hf.
  - destruct (load_existing_hadiths f) as [existing|] eqn:Hload.
    + pose proof (Hstep (missing_hadiths existing hs)
                    (λ new, ChapterJson (sort_by_id (existing ++ new)))
                    (λ new, forallb has_int_id (existing ++ new))
                    (filter_chapter_missing _ _ _)) as Hs.
      destruct (missing_hadiths existing hs) as [|h0 rest] eqn:Hmiss.
      * exists [], mi. rewrite app_nil_r. simpl.
        repeat split; try constructor; try congruence.
        by intros ? ?%elem_of_nil.
      * simpl in Hs. destruct Hs as (evs & mi' & H1 & H2 & H3 & H4 & H5 & H6).
        exists evs, mi'. do 4 (split; [done|]).
        split; [|exact H6]. intros Hr.
        destruct (H5 Hr) as [Hex|(new & Hguard & Hnew)].
        { right. eapply Exists_impl; [exact Hex|]. intros e He. by left. }
        apply forallb_false_Exists, Exists_app in Hguard as [Hold|Hbad].
        { left. exists f. split; [done|]. right. by exists existing. }
        right. apply Exists_exists in Hbad as (t & Hin & Hint).
        rewrite Forall_forall in Hnew.
        destruct (Hnew t Hin) as (t0 & Hid & Hex).
        eapply Exists_impl; [exact Hex|]. intros e He. right. exists t0.
        split; [done|]. unfold has_int_id in *. by rewrite <- Hid.
    + exists [], mi. rewrite app_nil_r. simpl.
      do 4 (split; [by try constructor|]). split; [|done].
      intros _. left. eauto.
  - destruct (Hstep hs ChapterJson (λ _, true))
      as (evs & mi' & H1 & H2 & H3 & H4 & H5 & H6).
    { subst hs. apply list_filter_filter_l. auto. }
    exists evs, mi'. do 4 (split; [done|]).
    split; [|exact H6]. intros Hr.
    destruct (H5 Hr) as [Hex|(new & Hguard & _)]; [|done].
    right. eapply Exists_impl; [exact Hex|]. intros e He. by left.
Qed.

Lemma submitted_chapter_events path hs evs d :
  Forall (chapter_event_of path hs) evs → d ∈ submitted evs →
  ∃ h, h ∈ hs ∧ d = make_translation_data h.
Proof.
  induction 1 as [|e evs [(h & Hin & model & o & ->)| ->] _ IH]; simpl.
  - by intros ?%elem_of_nil.
  - intros [->|Hd]%elem_of_cons; eauto.
  - exact IH.
Qed.

(** The resume branch as the code has it.  When the chapter's file
    exists, the records sent to the endpoint are records of the chapter
    whose identifier, as the corpus gives it, is equal to no identifier in
    the file, and, once the chapter has been processed, they are all of
    those. *)
Lemma process_chapter_resume_submits_missing models book_name all c mi cnt w tr f :
  fs w !! chapter_path book_name (c_id c) = Some f →
  ∃ evs,
    events (world_of (process_chapter models book_name all c mi cnt w tr)) =
      events w ++ evs
    ∧ (∀ d, d ∈ submitted evs →
         ∃ h, h ∈ all ∧ h_chapterId h = c_id c
              ∧ (IdInt (h_id h) ∉ persisted_ids f) ∧ d = make_translation_data h)
    ∧ (finished (process_chapter models book_name all c mi cnt w tr) = true →
       ∀ h, h ∈ all → h_chapterId h = c_id c →
            IdInt (h_id h) ∉ persisted_ids f →
            make_translation_data h ∈ submitted evs).
Proof.
  intros Hf.
  destruct (process_chapter_run models book_name all c mi cnt w tr)
    as (evs & mi' & Hev & Hall & _ & _ & _ & Hd).
  exists evs. split; [done|].
  unfold work_list in Hall, Hd. rewrite Hf in Hall, Hd.
  unfold persisted_ids.
  destruct (load_existing_hadiths f) as [existing|] eqn:Hload.
  - split.
    + intros d Hin.
      destruct (submitted_chapter_events _ _ _ _ Hall Hin) as (h & Hh & ->).
      apply elem_of_missing_hadiths in Hh as [Hid Hh].
      apply list_elem_of_filter in Hh as [Hc Hh]. eauto 6.
    + intros Hfin h Hh Hc Hid.
      destruct (process_chapter models book_name all c mi cnt w tr)
        as [[mi2 c2] w' tr'| | | |]; try discriminate.
      destruct (Hd _ _ _ _ eq_refl) as (_ & _ & Hsub). apply Hsub.
      apply elem_of_missing_hadiths. split; [done|].
      by apply list_elem_of_filter.
  - split.
    + intros d Hin.
      destruct (submitted_chapter_events _ _ _ _ Hall Hin) as (h & Hh & _).
      by apply elem_of_nil in Hh.
    + unfold process_chapter. by rewrite Hf, Hload.
Qed.

(** C4, at a failing input.  The chapter's file holds record 1 under the
    identifier ["1"], a string, which the sort of line 490 reads as the
    number 1.  The book has record 1 in the chapter.  The resume run
    compares the identifiers as they stand (lines 450 and 458), finds the
    integer 1 absent from the file, sends record 1 to the endpoint again,
    and writes a file that holds the record twice. *)
Theorem C4_resume_retranslates_persisted_id :
  int_of_id <$> persisted_ids (ChapterJson [string_id_translated]) = [Some 1]
  ∧ h_id (sample_hadith 1 1) = 1
  ∧ process_chapter MODELS "bukhari" [sample_hadith 1 1]
      (sample_chapter 1 "Revelation") 0 0 string_id_world [translated_reply 1] =
    Done (0%nat, 0%nat)
      {| fs := {[ chapter_path "bukhari" 1 :=
                    ChapterJson [string_id_translated; sample_translated 1] ]};
         error_hadith_numbers := [];
         events :=
           [ EvTranslateHadith "gemini-2.0-flash"
               (make_translation_data (sample_hadith 1 1)) (translated_reply 1);
             EvWrite (chapter_path "bukhari" 1) ] |}
      []
  ∧ int_of_id <$> (t_id <$> [string_id_translated; sample_translated 1]) =
    [Some 1; Some 1].
Proof. repeat split; vm_compute; reflexivity. Qed.

(** A resume run on a file with integer identifiers: one call, for record
    1 only, and the merged file holds records 1 and 2 in that order. *)
Example resume_run_example :
  process_chapter MODELS "bukhari"
    [sample_hadith 1 1; sample_hadith 2 1; sample_hadith 3 2]
    (sample_chapter 1 "Revelation") 0 0 resume_world [translated_reply 1] =
  Done (0%nat, 0%nat)
    {| fs := {[ chapter_path "bukhari" 1 :=
                  ChapterJson [sample_translated 1; sample_translated 2] ]};
       error_hadith_numbers := [];
       events :=
         [ EvTranslateHadith "gemini-2.0-flash"
             (make_translation_data (sample_hadith 1 1)) (translated_reply 1);
           EvWrite (chapter_path "bukhari" 1) ] |}
    [].
Proof. vm_compute. reflexivity. Qed.

(** ** Paths *)

Lemma pretty_N_go_head x s :
  (0 < x)%N → ∃ k s', pretty_N_go x s = String (pretty_N_char k) s'.
Proof.
  revert s. induction (N.lt_wf_0 x) as [x _ IH]; intros s Hx.
  rewrite pretty_N_go_step by done.
  destruct (decide (x `div` 10 = 0)%N) as [->|Hne].
  - rewrite pretty_N_go_0. eauto.
  - apply IH; [by apply N.div_lt|by apply N.neq_0_lt_0].
Qed.

Lemma pretty_N_char_not_n k : pretty_N_char k ≠ "n"%char.
Proof. unfold pretty_N_char. by repeat case_match. Qed.

(** The decimal form of a chapter identifier does not start with an [n]:
    no chapter file is called [chapter_names.json]. *)
Lemma pretty_Z_not_names (z : Z) s : pretty z +:+ s ≠ "names.json".
Proof.
  destruct z as [|p|p]; unfold pretty, pretty_Z; [done| |done].
  unfold pretty, pretty_positive, pretty, pretty_N.
  rewrite decide_False by done.
  destruct (pretty_N_go_head (N.pos p) "") as (k & s' & ->); [lia|].
  simpl. intros [= Hk _]. by apply pretty_N_char_not_n in Hk.
Qed.

Lemma chapter_path_not_names book_name chapter_id :
  chapter_path book_name chapter_id ≠ chapter_names_path book_name.
Proof.
  unfold chapter_path, chapter_names_path. intros Heq.
  apply (inj (String.app _)) in Heq. simpl in Heq.
  injection Heq as Heq. by apply pretty_Z_not_names in Heq.
Qed.

(** ** The chapter-name phase *)

Lemma submitted_names_app evs1 evs2 :
  submitted_names (evs1 ++ evs2) = submitted_names evs1 ++ submitted_names evs2.
Proof. apply omap_app. Qed.

Lemma writes_app evs1 evs2 : writes (evs1 ++ evs2) = writes evs1 ++ writes evs2.
Proof. apply omap_app. Qed.

Lemma chapter_call_submitted name evs :
  Forall (chapter_call_of name) evs → evs ≠ [] → name ∈ submitted_names evs.
Proof.
  intros Hall Hne. destruct Hall as [|e evs (model & o & ->) _]; [done|].
  simpl. left.
Qed.

(** The first loop of [process_book]: it calls the endpoint only for
    chapters whose identifier the index does not hold, at the models the
    rotation rule gives; it writes nothing; the list that comes out is the
    list that went in followed by the chapters just translated; and when
    the loop ends every chapter the index did not hold has been sent. *)
Lemma chapter_names_loop_run models ids cs :
  ∀ tcs mi cnt w tr,
    ∃ evs mi',
      events (world_of (chapter_names_loop models ids cs tcs mi cnt w tr)) =
        events w ++ evs
      ∧ fs (world_of (chapter_names_loop models ids cs tcs mi cnt w tr)) = fs w
      ∧ error_hadith_numbers
          (world_of (chapter_names_loop models ids cs tcs mi cnt w tr)) =
        error_hadith_numbers w
      ∧ Forall (names_event_of ids cs) evs
      ∧ rotation_path models mi evs mi'
      ∧ raises (chapter_names_loop models ids cs tcs mi cnt w tr) = false
      ∧ (∀ tcs2 mi2 w' tr',
           chapter_names_loop models ids cs tcs mi cnt w tr =
             Done (tcs2, mi2) w' tr' →
           mi2 = mi'
           ∧ (∃ new, tcs2 = tcs ++ new ∧ Forall (new_entry_of ids cs) new)
           ∧ ((mi < length models)%nat →
              ∀ c, c ∈ cs → c_id c ∉ ids →
                   chapter_title c ∈ submitted_names evs)).
Proof.
  induction cs as [|c cs IH]; intros tcs mi cnt w tr;
    cbn [chapter_names_loop].
  { exists [], mi. rewrite app_nil_r. simpl.
    repeat split; try constructor; try congruence.
    - exists []. rewrite app_nil_r. split; [congruence|constructor].
    - by intros ? ? ?%elem_of_nil. }
  assert (Hmono_ev : ∀ e, names_event_of ids cs e → names_event_of ids (c :: cs) e).
  { intros e (c' & Hin & Hid & Hc). exists c'. split; [by right|done]. }
  assert (Hmono_new : ∀ tc, new_entry_of ids cs tc → new_entry_of ids (c :: cs) tc).
  { intros tc (c' & Hin & H'). exists c'. split; [by right|done]. }
  destruct (decide (c_id c ∈ ids)) as [Hskip|Hnew].
  { destruct (IH tcs mi cnt w tr)
      as (evs & mi' & Hev & Hfs & Herr & Hall & Hrp & Hr & Hd).
    exists evs, mi'. do 3 (split; [done|]).
    split; [eapply Forall_impl; eauto|]. do 2 (split; [done|]).
    intros tcs2 mi2 w' tr' Heq.
    destruct (Hd _ _ _ _ Heq) as (-> & (new & -> & Hnew) & Hsub).
    split; [done|]. split.
    - exists new. split; [done|]. eapply Forall_impl; eauto.
    - intros Hmi c' [->|Hin]%elem_of_cons Hid; [done|auto]. }
  unfold translate_chapter_name.
  destruct (translate_chapter_name_loop_run models (chapter_title c) 20 tr 0
              mi cnt w) as (evs1 & mi1 & Hev1 & Hfs1 & Herr1 & Hall1 & Hrp1 & Hr1 & Hd1).
  assert (Hall1' : Forall (names_event_of ids (c :: cs)) evs1).
  { eapply Forall_impl; [exact Hall1|]. intros e He. exists c.
    split; [left|done]. }
  destruct (translate_chapter_name_loop models (chapter_title c) 20 tr 0 mi cnt w)
    as [[title mi2] w1 tr1| | | |] eqn:Hloop; simpl in *;
    try (exists evs1, mi1; repeat split; auto; congruence).
  destruct (Hd1 _ _ _ _ eq_refl) as [-> Hne]. specialize (Hne ltac:(lia)).
  assert (Hgen : ∀ new1,
    Forall (new_entry_of ids (c :: cs)) new1 →
    ∃ evs mi',
      events (world_of (chapter_names_loop models ids cs (tcs ++ new1) mi1 cnt w1 tr1)) =
        events w ++ evs
      ∧ fs (world_of (chapter_names_loop models ids cs (tcs ++ new1) mi1 cnt w1 tr1)) =
        fs w
      ∧ error_hadith_numbers
          (world_of (chapter_names_loop models ids cs (tcs ++ new1) mi1 cnt w1 tr1)) =
        error_hadith_numbers w
      ∧ Forall (names_event_of ids (c :: cs)) evs
      ∧ rotation_path models mi evs mi'
      ∧ raises (chapter_names_loop models ids cs (tcs ++ new1) mi1 cnt w1 tr1) = false
      ∧ (∀ tcs2 mi2 w' tr',
           chapter_names_loop models ids cs (tcs ++ new1) mi1 cnt w1 tr1 =
             Done (tcs2, mi2) w' tr' →
           mi2 = mi'
           ∧ (∃ new, tcs2 = tcs ++ new ∧ Forall (new_entry_of ids (c :: cs)) new)
           ∧ ((mi < length models)%nat →
              ∀ c', c' ∈ c :: cs → c_id c' ∉ ids →
                    chapter_title c' ∈ submitted_names evs))).
  { intros new1 Hnew1.
    destruct (IH (tcs ++ new1) mi1 cnt w1 tr1)
      as (evs2 & mi' & Hev2 & Hfs2 & Herr2 & Hall2 & Hrp2 & Hr2 & Hd2).
    exists (evs1 ++ evs2), mi'.
    split; [by rewrite Hev2, Hev1, app_assoc|].
    split; [by rewrite Hfs2|]. split; [by rewrite Herr2|].
    split; [apply Forall_app; split; [done|]; eapply Forall_impl; eauto|].
    split; [by eapply rotation_path_app|]. split; [done|].
    intros tcs2 mi2 w' tr' Heq.
    destruct (Hd2 _ _ _ _ Heq) as (-> & (new & -> & Hnew2) & Hsub).
    split; [done|]. split.
    - exists (new1 ++ new). rewrite app_assoc. split; [done|].
      apply Forall_app. split; [done|]. eapply Forall_impl; eauto.
    - intros Hmi c' Hin Hid. rewrite submitted_names_app, elem_of_app.
      apply elem_of_cons in Hin as [->|Hin].
      + left. apply chapter_call_submitted; auto.
      + right. apply Hsub; auto.
        eapply rotation_path_in_range; eauto. }
  destruct title as [[|a malay]|].
  - specialize (Hgen [] ltac:(constructor)). by rewrite app_nil_r in Hgen.
  - apply Hgen. repeat constructor. exists c. simpl.
    split; [left|]. repeat split; auto.
  - specialize (Hgen [] ltac:(constructor)). by rewrite app_nil_r in Hgen.
Qed.

(** ** The record phase and the whole book *)

Lemma chapter_events_no_names path hs evs :
  Forall (chapter_event_of path hs) evs → submitted_names evs = [].
Proof.
  induction 1 as [|e evs [(h & _ & model & o & ->)| ->] _ IH]; simpl; auto.
Qed.

Lemma names_events_no_writes ids cs evs :
  Forall (names_event_of ids cs) evs → writes evs = [] ∧ submitted evs = [].
Proof.
  induction 1 as [|e evs (c & _ & _ & model & o & ->) _ [IH1 IH2]]; simpl; auto.
Qed.

(** The second loop of [process_book]: no chapter name is sent any more;
    the models follow the rotation rule from the index the loop starts
    with; only chapter files can change; and a counter that is 0 when the
    loop starts is 0 when it ends. *)
Lemma chapters_loop_run models book_name all cs :
  ∀ mi cnt w tr,
    ∃ evs mi',
      events (world_of (chapters_loop models book_name all cs mi cnt w tr)) =
        events w ++ evs
      ∧ submitted_names evs = []
      ∧ rotation_path models mi evs mi'
      ∧ (∀ p, (∀ i, p ≠ chapter_path book_name i) →
           fs (world_of (chapters_loop models book_name all cs mi cnt w tr)) !! p =
           fs w !! p)
      ∧ (∀ mi2 c2 w' tr',
           chapters_loop models book_name all cs mi cnt w tr =
             Done (mi2, c2) w' tr' →
           mi2 = mi' ∧ (cnt = 0%nat → c2 = 0%nat)).
Proof.
  induction cs as [|c cs IH]; intros mi cnt w tr; cbn [chapters_loop].
  { exists [], mi. rewrite app_nil_r. simpl.
    repeat split; try constructor; congruence. }
  destruct (process_chapter_run models book_name all c mi cnt w tr)
    as (evs1 & mi1 & Hev1 & Hall1 & Hrp1 & Hfr1 & _ & Hd1).
  pose proof (chapter_events_no_names _ _ _ Hall1) as Hn1.
  destruct (process_chapter models book_name all c mi cnt w tr)
    as [[mi2 c2] w1 tr1| | | |]; simpl in *;
    try (exists evs1, mi1; repeat split; auto; congruence).
  destruct (Hd1 _ _ _ _ eq_refl) as (-> & Hc2 & _).
  destruct (IH mi1 c2 w1 tr1) as (evs2 & mi' & Hev2 & Hn2 & Hrp2 & Hfr2 & Hd2).
  exists (evs1 ++ evs2), mi'.
  split; [by rewrite Hev2, Hev1, app_assoc|].
  split; [by rewrite submitted_names_app, Hn1, Hn2|].
  split; [by eapply rotation_path_app|].
  split; [intros p Hp; rewrite Hfr2 by done; by apply Hfr1|].
  intros mi3 c3 w' tr' Heq. destruct (Hd2 _ _ _ _ Heq) as [-> Hc3].
  split; [done|]. intros ->. apply Hc3.
  rewrite Hc2. by destruct (work_list book_name all c w).
Qed.

(** [process_book]: the events of a book are those of the chapter-name
    phase, which writes nothing, followed by the writing of the index and
    the record phase, which sends no chapter name.  The models follow the
    rotation rule from index 0.  As long as the index has not been
    written the disk is as it was; once it has, it holds the list that was
    loaded followed by the chapters translated in this run. *)
Lemma process_book_run remote book_name w tr :
  ∃ evs1 evs2 j,
    events (world_of (process_book remote book_name w tr)) =
      events w ++ evs1 ++ evs2
    ∧ writes evs1 = [] ∧ submitted evs1 = [] ∧ submitted_names evs2 = []
    ∧ rotation_path MODELS 0 (evs1 ++ evs2) j
    ∧ (evs2 = [] → fs (world_of (process_book remote book_name w tr)) = fs w)
    ∧ (evs2 ≠ [] →
       ∃ b loaded new evs2',
         remote (lower book_name) = Fetched b
         ∧ load_chapter_names (fs w !! chapter_names_path book_name) =
           Some loaded
         ∧ Forall (new_entry_of (list_to_set (tc_id <$> loaded)) (b_chapters b))
             new
         ∧ evs2 = EvWrite (chapter_names_path book_name) :: evs2'
         ∧ fs (world_of (process_book remote book_name w tr))
             !! chapter_names_path book_name =
           Some (IndexJson {| ix_id := b_id b; ix_metadata := b_metadata b;
                              ix_chapters := loaded ++ new |})).
Proof.
  unfold process_book.
  assert (Hnone : ∀ r : result unit, world_of r = w →
    ∃ evs1 evs2 j,
      events (world_of r) = events w ++ evs1 ++ evs2
      ∧ writes evs1 = [] ∧ submitted evs1 = [] ∧ submitted_names evs2 = []
      ∧ rotation_path MODELS 0 (evs1 ++ evs2) j
      ∧ (evs2 = [] → fs (world_of r) = fs w)
      ∧ (evs2 ≠ [] →
         ∃ b loaded new evs2',
           remote (lower book_name) = Fetched b
           ∧ load_chapter_names (fs w !! chapter_names_path book_name) =
             Some loaded
           ∧ Forall (new_entry_of (list_to_set (tc_id <$> loaded)) (b_chapters b))
               new
           ∧ evs2 = EvWrite (chapter_names_path book_name) :: evs2'
           ∧ fs (world_of r) !! chapter_names_path book_name =
             Some (IndexJson {| ix_id := b_id b; ix_metadata := b_metadata b;
                                ix_chapters := loaded ++ new |}))).
  { intros r ->. exists [], [], 0%nat. rewrite !app_nil_r.
    repeat split; try constructor; done. }
  destruct (remote (lower book_name)) as [b| |] eqn:Hremote;
    [|by apply Hnone..].
  unfold translate_chapter_names.
  destruct (load_chapter_names (fs w !! chapter_names_path book_name))
    as [loaded|] eqn:Hload; [|by apply Hnone].
  set (ids := list_to_set (tc_id <$> loaded) : gset Z).
  destruct (chapter_names_loop_run MODELS ids (b_chapters b) loaded 0 0 w tr)
    as (evs1 & mi1 & Hev1 & Hfs1 & _ & Hall1 & Hrp1 & _ & Hd1).
  destruct (names_events_no_writes _ _ _ Hall1) as [Hw1 Hs1].
  destruct (chapter_names_loop MODELS ids (b_chapters b) loaded 0 0 w tr)
    as [[tcs mi2] w1 tr1| | | |]; simpl in *;
    try (exists evs1, [], mi1; rewrite !app_nil_r;
         repeat split; auto; congruence).
  destruct (Hd1 _ _ _ _ eq_refl) as (-> & (new & -> & Hnew) & _).
  set (ix := {| ix_id := b_id b; ix_metadata := b_metadata b;
                ix_chapters := loaded ++ new |}).
  set (w2 := write (chapter_names_path book_name) (IndexJson ix) w1).
  destruct (chapters_loop_run MODELS book_name (b_hadiths b) (b_chapters b)
              mi1 0 w2 tr1) as (evs2 & mi' & Hev2 & Hn2 & Hrp2 & Hfr2 & _).
  assert (Hw : world_of
                 (bind (chapters_loop MODELS book_name (b_hadiths b)
                          (b_chapters b) mi1 0 w2 tr1)
                    (λ _ w3 tr3, Done () w3 tr3)) =
               world_of (chapters_loop MODELS book_name (b_hadiths b)
                           (b_chapters b) mi1 0 w2 tr1)).
  { by destruct (chapters_loop MODELS book_name (b_hadiths b) (b_chapters b)
                   mi1 0 w2 tr1). }
  rewrite Hw. clear Hw.
  exists evs1, (EvWrite (chapter_names_path book_name) :: evs2), mi'.
  split; [rewrite Hev2; unfold w2;
          by rewrite events_write_app, Hev1, <- app_assoc|].
  do 3 (split; [done|]).
  split; [eapply rotation_path_app; [done|by constructor]|].
  split; [done|]. intros _.
  exists b, loaded, new, evs2. do 4 (split; [done|]).
  rewrite Hfr2; [subst w2; simpl; by rewrite lookup_insert_eq|].
  intros i Heq. by apply (chapter_path_not_names book_name i).
Qed.

(** ** Rotation state across chapters and books (C5) *)

(** C5, counterexample.  Four quota failures in the first book move it to
    the second model, with which its chapter name is translated; the next
    book sends its first call to the first model again: the rotation state
    is not carried from one book to the next. *)
Lemma C5_rotation_state_counterexample :
  omap model_of
    (events (world_of
       (main two_books_remote ∅
          [quota_error; quota_error; quota_error; quota_error;
           name_reply "Wahyu"; name_reply "Iman"]))) =
  [ "gemini-2.0-flash"; "gemini-2.0-flash"; "gemini-2.0-flash";
    "gemini-2.0-flash"; "gemini-2.0-flash-lite"; "gemini-2.0-flash" ]
  ∧ submitted_names
      (events (world_of
         (main two_books_remote ∅
            [quota_error; quota_error; quota_error; quota_error;
             name_reply "Wahyu"; name_reply "Iman"]))) =
    [ "Revelation"; "Revelation"; "Revelation"; "Revelation"; "Revelation";
      "Faith" ].
Proof. split; vm_compute; reflexivity. Qed.

(** C5, as the code has it.  Every book starts at model index 0, and within
    the book the index is carried from call to call, through the chapter
    names and on through the records of every chapter, changing only by
    the rotation rule.  The counter that [process_book] hands from one
    chapter to the next stays 0. *)
Theorem C5_rotation_state_within_book remote book_name w tr :
  (∃ evs j,
     events (world_of (process_book remote book_name w tr)) = events w ++ evs
     ∧ rotation_path MODELS 0 evs j)
  ∧ (∀ models all c mi w' tr',
       match process_chapter models book_name all c mi 0 w' tr' with
       | Done (_, cnt) _ _ => cnt = 0%nat
       | _ => True
       end).
Proof.
  split.
  - destruct (process_book_run remote book_name w tr)
      as (evs1 & evs2 & j & Hev & _ & _ & _ & Hrp & _).
    by exists (evs1 ++ evs2), j.
  - intros models all c mi w' tr'.
    destruct (process_chapter_run models book_name all c mi 0 w' tr')
      as (evs & mi' & _ & _ & _ & _ & _ & Hd).
    destruct (process_chapter models book_name all c mi 0 w' tr')
      as [[mi2 cnt] w2 tr2| | | |]; [|done..].
    destruct (Hd _ _ _ _ eq_refl) as (_ & -> & _).
    by destruct (work_list book_name all c w').
Qed.

(** ** Persisting the chapter-name index (C6) *)



(** ** Re-running a complete book (C7) *)

Lemma chapter_names_loop_all_translated models ids cs tcs mi cnt w tr :
  (∀ c, c ∈ cs → c_id c ∈ ids) →
  chapter_names_loop models ids cs tcs mi cnt w tr = Done (tcs, mi) w tr.
Proof.
  induction cs as [|c cs IH]; intros Hall; cbn [chapter_names_loop]; [done|].
  rewrite decide_True by (apply Hall; left).
  apply IH. intros c' Hin. apply Hall. by right.
Qed.

Lemma forallb_elem_of {A} (f : A → bool) l :
  forallb f l = true ↔ ∀ x, x ∈ l → f x = true.
Proof.
  rewrite forallb_forall. by setoid_rewrite list_elem_of_In.
Qed.

Lemma filter_none {A} (P : A → Prop) `{!∀ x, Decision (P x)} (l : list A) :
  (∀ x, x ∈ l → ¬ P x) → filter P l = [].
Proof.
  induction l as [|x l IH]; intros Hall; [done|].
  rewrite filter_cons_False by (apply Hall; left).
  apply IH. intros y Hy. apply Hall. by right.
Qed.

Lemma process_chapter_complete models book_name b c mi cnt w tr :
  chapter_complete (fs w !! chapter_path book_name (c_id c)) b c = true →
  process_chapter models book_name (b_hadiths b) c mi cnt w tr =
  Done (mi, cnt) w tr.
Proof.
  unfold chapter_complete, process_chapter.
  destruct (fs w !! chapter_path book_name (c_id c)) as [[|ix|l|l]|];
    try discriminate.
  intros [Hids Hall]%andb_true_iff. simpl. rewrite Hids.
  replace (missing_hadiths l
             (filter (λ h, h_chapterId h = c_id c) (b_hadiths b)))
    with (@nil hadith); [done|].
  symmetry. apply filter_none.
  intros h [Hc Hin]%list_elem_of_filter Hid. apply Hid.
  rewrite forallb_elem_of in Hall. specialize (Hall h Hin).
  apply bool_decide_eq_true in Hall.
  apply elem_of_list_to_set. auto.
Qed.

Lemma chapters_loop_complete models book_name b cs mi cnt w tr :
  forallb
    (λ c, chapter_complete (fs w !! chapter_path book_name (c_id c)) b c) cs
    = true →
  chapters_loop models book_name (b_hadiths b) cs mi cnt w tr =
  Done (mi, cnt) w tr.
Proof.
  induction cs as [|c cs IH]; cbn [chapters_loop forallb]; [done|].
  intros [Hc Hcs]%andb_true_iff.
  rewrite process_chapter_complete by done. simpl. auto.
Qed.

(** C7, counterexample.  Every chapter of the book is in the index and
    every record is in its chapter file, but the index was written when the
    book had another title.  The run calls the endpoint for nothing, yet
    it writes the index file, whose content changes. *)
Lemma C7_rerun_mutates_index_counterexample :
  book_complete (fs complete_world) "bukhari" complete_book = true
  ∧ events (world_of
              (process_book (λ _, Fetched complete_book) "bukhari"
                 complete_world [translated_reply 1])) =
    [EvWrite (chapter_names_path "bukhari")]
  ∧ fs complete_world !! chapter_names_path "bukhari" =
    Some (IndexJson stale_index)
  ∧ fs (world_of
          (process_book (λ _, Fetched complete_book) "bukhari"
             complete_world [translated_reply 1]))
      !! chapter_names_path "bukhari" =
    Some (IndexJson
            {| ix_id := 1; ix_metadata := sample_metadata;
               ix_chapters := [{| tc_id := 1; tc_english := "Revelation";
                                  tc_malay := "Wahyu" |}] |}).
Proof. repeat split; vm_compute; reflexivity. Qed.

(** C7, as the code has it.  Re-running a complete book makes no call of
    the endpoint (the oracle is handed back untouched) and leaves every
    chapter file alone; it writes one file, the chapter-name index, with
    the identifier and the metadata of the fetched book and the chapter
    list it has just loaded.  When the index already held that identifier
    and that metadata the disk is unchanged. *)
Theorem C7_rerun_complete_book remote book_name b w tr :
  remote (lower book_name) = Fetched b →
  book_complete (fs w) book_name b = true →
  ∃ ix,
    fs w !! chapter_names_path book_name = Some (IndexJson ix)
    ∧ process_book remote book_name w tr =
      Done ()
        (write (chapter_names_path book_name)
           (IndexJson {| ix_id := b_id b; ix_metadata := b_metadata b;
                         ix_chapters := ix_chapters ix |}) w)
        tr
    ∧ (ix_id ix = b_id b → ix_metadata ix = b_metadata b →
       fs (world_of (process_book remote book_name w tr)) = fs w).
Proof.
  intros Hremote [Hix Hcs]%andb_true_iff.
  unfold index_complete in Hix.
  destruct (fs w !! chapter_names_path book_name) as [[|ix|l|l]|] eqn:Hf;
    try discriminate.
  exists ix. split; [done|].
  assert (Hrun : process_book remote book_name w tr =
    Done ()
      (write (chapter_names_path book_name)
         (IndexJson {| ix_id := b_id b; ix_metadata := b_metadata b;
                       ix_chapters := ix_chapters ix |}) w) tr).
  { unfold process_book, translate_chapter_names. rewrite Hremote, Hf. simpl.
    rewrite chapter_names_loop_all_translated.
    2:{ intros c Hc. rewrite forallb_elem_of in Hix.
        apply elem_of_list_to_set. specialize (Hix c Hc).
        by apply bool_decide_eq_true in Hix. }
    simpl. rewrite chapters_loop_complete; [done|].
    rewrite forallb_elem_of in Hcs |- *. intros c Hc. simpl.
    rewrite lookup_insert_ne by (symmetry; apply chapter_path_not_names).
    by apply Hcs. }
  split; [done|].
  intros Hid Hmd. rewrite Hrun. simpl. apply insert_id.
  rewrite Hf. f_equal. f_equal. destruct ix; simpl in *; by subst.
Qed.

Lemma C7_rerun_complete_book_witness :
  ∃ ix,
    fs rerun_world !! chapter_names_path "bukhari" = Some (IndexJson ix)
    ∧ process_book (λ _, Fetched complete_book) "bukhari" rerun_world
        [translated_reply 1] =
      Done ()
        (write (chapter_names_path "bukhari")
           (IndexJson {| ix_id := b_id complete_book;
                         ix_metadata := b_metadata complete_book;
                         ix_chapters := ix_chapters ix |}) rerun_world)
        [translated_reply 1]
    ∧ (ix_id ix = b_id complete_book →
       ix_metadata ix = b_metadata complete_book →
       fs (world_of
             (process_book (λ _, Fetched complete_book) "bukhari" rerun_world
                [translated_reply 1])) = fs rerun_world).
Proof.
  apply (C7_rerun_complete_book (λ _, Fetched complete_book) "bukhari"
           complete_book rerun_world [translated_reply 1]).
  - reflexivity.
  - vm_compute. reflexivity.
Defined.

(** ** Order of a chapter file (C8) *)

Lemma insert_by_id_sorted x l :
  is_sorted_by_id l = true → is_sorted_by_id (insert_by_id x l) = true.
Proof.
  induction l as [|y l IH]; [done|]. intros Hl. cbn [insert_by_id].
  destruct (Z.leb_spec (sort_key x) (sort_key y)) as [Hxy|Hxy].
  - cbn [is_sorted_by_id]. apply andb_true_iff. split; [lia|done].
  - destruct l as [|z l]; cbn [insert_by_id is_sorted_by_id] in *.
    + apply andb_true_iff. split; [lia|done].
    + apply andb_true_iff in Hl as [Hyz Hl]. specialize (IH Hl).
      destruct (Z.leb_spec (sort_key x) (sort_key z)).
      * cbn [is_sorted_by_id] in *. rewrite IH, andb_true_r. lia.
      * cbn [is_sorted_by_id] in *. by rewrite Hyz.
Qed.

Lemma sort_by_id_sorted l : is_sorted_by_id (sort_by_id l) = true.
Proof.
  induction l as [|x l IH]; [done|]. simpl. by apply insert_by_id_sorted.
Qed.

Lemma insert_by_id_perm x l : insert_by_id x l ≡ₚ x :: l.
Proof.
  induction l as [|y l IH]; [done|]. simpl.
  destruct (sort_key x <=? sort_key y); [done|]. rewrite IH. apply Permutation_swap.
Qed.

Lemma sort_by_id_perm l : sort_by_id l ≡ₚ l.
Proof.
  induction l as [|x l IH]; [done|]. simpl.
  by rewrite insert_by_id_perm, IH.
Qed.

(** The resume branch: whatever happens, the chapter's file is the one
    that was there, or it has been rewritten with the old and the new
    records, all with an identifier [int] accepts, merged in ascending
    order of [int(id)]. *)
Lemma process_chapter_resume_sorted models book_name all c mi cnt w tr f :
  fs w !! chapter_path book_name (c_id c) = Some f →
  fs (world_of (process_chapter models book_name all c mi cnt w tr))
    !! chapter_path book_name (c_id c) = Some f
  ∨ ∃ existing new,
      load_existing_hadiths f = Some existing
      ∧ fs (world_of (process_chapter models book_name all c mi cnt w tr))
          !! chapter_path book_name (c_id c) =
        Some (ChapterJson (sort_by_id (existing ++ new)))
      ∧ forallb has_int_id (existing ++ new) = true
      ∧ is_sorted_by_id (sort_by_id (existing ++ new)) = true
      ∧ sort_by_id (existing ++ new) ≡ₚ existing ++ new.
Proof.
  intros Hf. unfold process_chapter. rewrite Hf.
  destruct (load_existing_hadiths f) as [existing|] eqn:Hload; [|by left].
  destruct (missing_hadiths existing _) as [|h0 rest]; [by left|].
  destruct (process_hadiths_run models (c_id c) (h0 :: rest) mi cnt w tr)
    as (evs & mi' & _ & Hfs & _).
  destruct (process_hadiths models (c_id c) (h0 :: rest) mi cnt w tr)
    as [[[res mi1] c1] w1 tr1| | | |]; simpl in *;
    try (left; by rewrite Hfs).
  destruct res as [[|t l]|]; simpl; try (left; by rewrite Hfs).
  destruct (forallb has_int_id (existing ++ t :: l)) eqn:Hint; simpl;
    [|left; by rewrite Hfs].
  right. exists existing, (t :: l). rewrite lookup_insert_eq.
  auto using sort_by_id_sorted, sort_by_id_perm.
Qed.

(** C8, at a failing input.  The book lists record 2 before record 1 and
    the chapter has no file yet: the file written holds the records in the
    order of the book, which is not ascending. *)
Theorem C8_fresh_write_not_sorted :
  fs (world_of
        (process_book (λ _, Fetched unordered_book) "bukhari" empty_world
           [name_reply "Wahyu"; translated_reply 2; translated_reply 1]))
    !! chapter_path "bukhari" 1 =
  Some (ChapterJson [sample_translated 2; sample_translated 1])
  ∧ is_sorted_by_id [sample_translated 2; sample_translated 1] = false.
Proof. split; vm_compute; reflexivity. Qed.

(** ** Interruption (C9) *)

(** C9, counterexample.  The run is interrupted in its first call, with an
    empty error list.  Nothing is written: an [error_hadiths.json] left by
    an earlier run still lists record 7, and on an empty disk there is no
    such file at all. *)
Lemma C9_interrupt_counterexample :
  interrupt (main two_books_remote {[ error_path := ErrorsJson [7] ]} []) =
  Exited 0
    {| fs := {[ error_path := ErrorsJson [7] ]};
       error_hadith_numbers := []; events := [] |}
  ∧ interrupt (main two_books_remote ∅ []) = Exited 0 empty_world.
Proof. split; vm_compute; reflexivity. Qed.

(** C9, as the code has it.  An interrupt that arrives while the script
    waits for the endpoint ends the process with code 0.  If the error
    list is not empty, [error_hadiths.json] then holds exactly that list;
    if it is empty, the handler writes nothing and the world is as it
    was. *)
Theorem C9_interrupt_flushes_nonempty_error_list (w : world) :
  interrupt (Pending w : result unit) = Exited 0 (save_error_hadiths w)
  ∧ (error_hadith_numbers w ≠ [] →
     fs (save_error_hadiths w) !! error_path =
       Some (ErrorsJson (error_hadith_numbers w))
     ∧ error_hadith_numbers (save_error_hadiths w) = error_hadith_numbers w)
  ∧ (error_hadith_numbers w = [] → save_error_hadiths w = w).
Proof.
  split; [done|]. unfold save_error_hadiths.
  destruct (error_hadith_numbers w) as [|n l] eqn:Herr; split; try done.
  intros _. simpl. by rewrite lookup_insert_eq.
Qed.

(** A run that has failed on a record and is then interrupted: the number
    of the record is in the file. *)
Example interrupt_after_failure_example :
  fs (world_of
        (interrupt
           (main (λ _, Fetched unordered_book) ∅
              [name_reply "Wahyu";
               Reply {| text := "{}"; json := PFalsy |}])))
    !! error_path = Some (ErrorsJson [2]).
Proof. vm_compute. reflexivity. Qed.

(** ** Undecodable resume files (C10) *)



(** The run on undecodable files: both chapters' worth of work is done
    again and both files are rewritten. *)
Example garbage_run_example :
  process_book (λ _, Fetched complete_book) "bukhari" garbage_world
    [name_reply "Wahyu"; translated_reply 1; translated_reply 2] =
  Done ()
    {| fs := {[ chapter_names_path "bukhari" := IndexJson fresh_index;
                chapter_path "bukhari" 1 :=
                  ChapterJson [sample_translated 1; sample_translated 2] ]};
       error_hadith_numbers := [];
       events :=
         [ EvTranslateChapter "gemini-2.0-flash" "Revelation" (name_reply "Wahyu");
           EvWrite (chapter_names_path "bukhari");
           EvTranslateHadith "gemini-2.0-flash"
             (make_translation_data (sample_hadith 1 1)) (translated_reply 1);
           EvTranslateHadith "gemini-2.0-flash"
             (make_translation_data (sample_hadith 2 1)) (translated_reply 2);
           EvWrite (chapter_path "bukhari" 1) ] |}
    [].
Proof. vm_compute. reflexivity. Qed.

(** The same book when only the chapter file is undecodable, under a
    complete index: no chapter name is sent, both records are sent again,
    and the chapter file is rewritten. *)
Example chapter_garbage_run_example :
  process_book (λ _, Fetched complete_book) "bukhari" chapter_garbage_world
    [translated_reply 1; translated_reply 2] =
  Done ()
    {| fs := {[ chapter_names_path "bukhari" := IndexJson fresh_index;
                chapter_path "bukhari" 1 :=
                  ChapterJson [sample_translated 1; sample_translated 2] ]};
       error_hadith_numbers := [];
       events :=
         [ EvWrite (chapter_names_path "bukhari");
           EvTranslateHadith "gemini-2.0-flash"
             (make_translation_data (sample_hadith 1 1)) (translated_reply 1);
           EvTranslateHadith "gemini-2.0-flash"
             (make_translation_data (sample_hadith 2 1)) (translated_reply 2);
           EvWrite (chapter_path "bukhari" 1) ] |}
    [].
Proof. vm_compute. reflexivity. Qed.

(** * Further properties of the code *)

(** ** The text of a reply: code fences *)

Lemma startswith_app p s : startswith p (p +:+ s) = true.
Proof.
  induction p as [|a p IH]; simpl; [done|]. by rewrite Ascii.eqb_refl.
Qed.

Lemma startswith_spec p s :
  startswith p s = true ↔ ∃ rest, s = p +:+ rest.
Proof.
  split.
  - revert s. induction p as [|a p IH]; intros s; simpl; [eauto|].
    destruct s as [|b s]; [done|].
    destruct (Ascii.eqb_spec a b) as [->|]; [|done].
    intros [rest ->]%IH. eauto.
  - intros [rest ->]. apply startswith_app.
Qed.

Lemma string_drop_app p s : string_drop (String.length p) (p +:+ s) = s.
Proof. induction p as [|a p IH]; simpl; auto. Qed.

Lemma string_take_app p s : string_take (String.length p) (p +:+ s) = p.
Proof. induction p as [|a p IH]; simpl; [done|]. by rewrite IH. Qed.

Lemma string_length_app p s :
  String.length (p +:+ s) = (String.length p + String.length s)%nat.
Proof. induction p as [|a p IH]; simpl; auto. Qed.

Lemma string_take_drop n s : string_take n s +:+ string_drop n s = s.
Proof.
  revert s. induction n as [|n IH]; intros [|a s]; simpl; try done.
  change (String a (string_take n s +:+ string_drop n s) = String a s).
  by rewrite IH.
Qed.

Lemma endswith_app s suffix : endswith suffix (s +:+ suffix) = true.
Proof.
  unfold endswith. rewrite string_length_app.
  replace (String.length s + String.length suffix - String.length suffix)%nat
    with (String.length s) by lia.
  rewrite string_drop_app, String.eqb_refl, andb_true_r.
  apply Nat.leb_le. lia.
Qed.

Lemma string_drop_last_app s suffix :
  string_drop_last (String.length suffix) (s +:+ suffix) = s.
Proof.
  unfold string_drop_last. rewrite string_length_app.
  replace (String.length s + String.length suffix - String.length suffix)%nat
    with (String.length s) by lia.
  apply string_take_app.
Qed.

Lemma endswith_spec suffix s :
  endswith suffix s = true ↔ ∃ front, s = front +:+ suffix.
Proof.
  split.
  - unfold endswith. intros [_ Heq%String.eqb_eq]%andb_true_iff.
    exists (string_take (String.length s - String.length suffix) s).
    pose proof (string_take_drop (String.length s - String.length suffix) s)
      as Hs.
    by rewrite Heq in Hs.
  - intros [front ->]. apply endswith_app.
Qed.

Lemma endswith_drop_last suffix s :
  endswith suffix s = true →
  s = string_drop_last (String.length suffix) s +:+ suffix.
Proof.
  intros [front ->]%endswith_spec. by rewrite string_drop_last_app.
Qed.

(** X1.  A reply wrapped in a [```json ... ```] fence, or in a bare
    [``` ... ```] fence whose body does not itself start with [json], is
    unwrapped to exactly its body, whatever the body is. *)
Theorem strip_code_fences_unwraps body :
  strip_code_fences ("```json" +:+ body +:+ "```") = body
  ∧ (startswith "json" body = false →
     strip_code_fences ("```" +:+ body +:+ "```") = body).
Proof.
  split.
  - unfold strip_code_fences.
    rewrite (startswith_app "```json").
    rewrite (string_drop_app "```json").
    rewrite endswith_app. apply (string_drop_last_app body "```").
  - intros Hj. unfold strip_code_fences.
    assert (Hno : startswith "```json" ("```" +:+ body +:+ "```") = false).
    { destruct body as [|a [|b [|c [|d body]]]]; simpl in *; try done;
        repeat (case_match; try done). }
    rewrite Hno, (startswith_app "```"), (string_drop_app "```").
    rewrite endswith_app. apply (string_drop_last_app body "```").
Qed.

Lemma startswith_shorter p q s :
  startswith (p +:+ q) s = true → startswith p s = true.
Proof.
  intros [rest ->]%startswith_spec. apply startswith_spec.
  exists (q +:+ rest). clear. induction p as [|a p IH]; [done|].
  change (String a ((p +:+ q) +:+ rest) = String a (p +:+ q +:+ rest)).
  by rewrite IH.
Qed.

(** X2.  Stripping removes at most one opening fence, [```json] or
    [```], and at most one closing fence, and nothing else: the text is
    the result between the two.  A text that neither starts nor ends with
    a fence is left as it is. *)
Theorem strip_code_fences_removes_only_fences text :
  (∃ opening closing,
     text = opening +:+ strip_code_fences text +:+ closing
     ∧ opening ∈ ["```json"; "```"; ""]
     ∧ closing ∈ ["```"; ""])
  ∧ (startswith "```" text = false → endswith "```" text = false →
     strip_code_fences text = text).
Proof.
  assert (Hclose : ∀ t,
    ∃ closing,
      t = (if endswith "```" t then string_drop_last 3 t else t) +:+ closing
      ∧ closing ∈ ["```"; ""]).
  { intros t. destruct (endswith "```" t) eqn:He.
    - exists "```". split; [by apply (endswith_drop_last "```")|left].
    - exists "". split; [|right; left].
      clear. induction t as [|a t IH]; [done|].
      change (String a t = String a (t +:+ "")). by rewrite <- IH. }
  split.
  - unfold strip_code_fences.
    destruct (startswith "```json" text) eqn:H1.
    + apply startswith_spec in H1 as [rest ->].
      rewrite (string_drop_app "```json").
      destruct (Hclose rest) as (closing & Heq & Hin).
      exists "```json", closing. split; [|split; [left|done]].
      by rewrite <- Heq.
    + destruct (startswith "```" text) eqn:H2.
      * apply startswith_spec in H2 as [rest ->].
        rewrite (string_drop_app "```").
        destruct (Hclose rest) as (closing & Heq & Hin).
        exists "```", closing. split; [|split; [right; left|done]].
        by rewrite <- Heq.
      * destruct (Hclose text) as (closing & Heq & Hin).
        exists "", closing. split; [|split; [do 2 right; left|done]].
        exact Heq.
  - intros Hs He. unfold strip_code_fences.
    assert (startswith "```json" text = false) as ->.
    { destruct (startswith "```json" text) eqn:H1; [|done].
      apply (startswith_shorter "```" "json") in H1. congruence. }
    by rewrite Hs, He.
Qed.

(** ** The quota marker *)

Lemma substring_take_drop n m s :
  String.substring n m s = string_take m (string_drop n s).
Proof.
  revert n m. induction s as [|a s IH]; intros [|n] [|m]; simpl; try done.
  by rewrite (IH 0%nat m); destruct s.
Qed.

(** X3.  A failure is taken for a quota failure exactly when the text
    [429 RESOURCE_EXHAUSTED] occurs somewhere in its message. *)
Theorem quota_exhausted_iff_marker_occurs msg :
  quota_exhausted msg = true ↔
  ∃ before after, msg = before +:+ QUOTA_MARKER +:+ after.
Proof.
  unfold quota_exhausted. fold QUOTA_MARKER. split.
  - destruct (String.index 0 QUOTA_MARKER msg) as [m|] eqn:Hidx; [|done].
    intros _. apply String.index_correct1 in Hidx.
    rewrite substring_take_drop in Hidx.
    exists (string_take m msg),
      (string_drop (String.length QUOTA_MARKER) (string_drop m msg)).
    rewrite <- Hidx at 1. by rewrite !string_take_drop.
  - intros (before & after & ->).
    destruct (String.index 0 QUOTA_MARKER (before +:+ QUOTA_MARKER +:+ after))
      eqn:Hidx; [done|].
    exfalso.
    apply (String.index_correct3 0 (String.length before)) in Hidx;
      [|done|lia].
    apply Hidx. rewrite substring_take_drop, string_drop_app.
    apply string_take_app.
Qed.

(** ** The retry loops on runs of equal outcomes *)

Lemma world_eta w :
  {| fs := fs w; error_hadith_numbers := error_hadith_numbers w;
     events := events w |} = w.
Proof. by destruct w. Qed.

(** The record loop on unparseable replies, from any number of attempts:
    each reply counts, and when the count reaches 5 the loop ends without
    a translation. *)
Lemma hadith_retry_loop_unparseable_from models data tr mi c model rs :
  ∀ attempts w,
    models !! mi = Some model →
    (attempts + length rs = 5)%nat →
    Forall (λ r, json r = PNone) rs →
    hadith_retry_loop models data ((Reply <$> rs) ++ tr) attempts mi c w =
    Done (PNone, mi, c)
      {| fs := fs w; error_hadith_numbers := error_hadith_numbers w;
         events :=
           events w ++ ((λ r, EvTranslateHadith model data (Reply r)) <$> rs) |}
      tr.
Proof.
  induction rs as [|r rs IH]; intros attempts w Hm Hlen Hall.
  - simpl in *. assert (attempts = 5%nat) as -> by lia.
    destruct tr; simpl; by rewrite app_nil_r, world_eta.
  - simpl in Hlen. inversion Hall as [|? ? Hr Hrs]; subst.
    cbn [fmap list_fmap app hadith_retry_loop].
    destruct (Nat.leb_spec 5 attempts) as [|_]; [lia|].
    rewrite Hm, Hr. rewrite (IH (S attempts)) by (done || lia).
    simpl. by rewrite <- app_assoc.
Qed.

(** X4.  A record whose replies cannot be parsed is given up after
    exactly five calls: the five replies are consumed, the record comes
    back without a translation, and neither the model index nor the
    exhaustion counter has moved. *)
Theorem hadith_retry_loop_unparseable models data tr mi c w model rs :
  models !! mi = Some model →
  length rs = 5%nat →
  Forall (λ r, json r = PNone) rs →
  hadith_retry_loop models data ((Reply <$> rs) ++ tr) 0 mi c w =
  Done (PNone, mi, c)
    {| fs := fs w; error_hadith_numbers := error_hadith_numbers w;
       events :=
         events w ++ ((λ r, EvTranslateHadith model data (Reply r)) <$> rs) |}
    tr.
Proof.
  intros Hm Hlen Hall.
  by apply hadith_retry_loop_unparseable_from.
Qed.

Lemma hadith_retry_loop_unparseable_witness :
  hadith_retry_loop MODELS (make_translation_data (sample_hadith 1 1))
    ((Reply <$> replicate 5 unparseable_reply) ++ [translated_reply 1])
    0 0 2 empty_world =
  Done (PNone, 0%nat, 2%nat)
    {| fs := fs empty_world;
       error_hadith_numbers := error_hadith_numbers empty_world;
       events :=
         events empty_world ++
         ((λ r, EvTranslateHadith "gemini-2.0-flash"
                  (make_translation_data (sample_hadith 1 1)) (Reply r))
            <$> replicate 5 unparseable_reply) |}
    [translated_reply 1].
Proof.
  apply (hadith_retry_loop_unparseable MODELS
           (make_translation_data (sample_hadith 1 1)) [translated_reply 1]
           0 2 empty_world "gemini-2.0-flash" (replicate 5 unparseable_reply)).
  - reflexivity.
  - reflexivity.
  - repeat constructor.
Defined.

Lemma returned_attempts_raised msgs :
  returned_attempts (Raised <$> msgs) = 0%nat.
Proof.
  induction msgs as [|msg msgs IH]; [done|].
  by rewrite fmap_cons, returned_attempts_cons, IH.
Qed.

(** Under quota failures alone, from a counter of 0, the [j]-th call goes
    to the model [j / 4] places further. *)
Lemma retry_calls_all_quota call models mi msgs o :
  Forall (λ msg, quota_exhausted msg = true) msgs →
  retry_calls call models mi 0 ((Raised <$> msgs) ++ [o]) =
  imap (λ j msg, call (model_at models (mi + j / 4)) (Raised msg)) msgs
  ++ [call (model_at models (mi + length msgs / 4)) o].
Proof.
  intros Hall. unfold retry_calls. rewrite imap_app. f_equal.
  - rewrite imap_fmap. apply imap_ext. intros j msg Hj. simpl.
    apply lookup_lt_Some in Hj.
    rewrite take_app_le by (rewrite length_fmap; lia).
    rewrite <- fmap_take, quota_failures_all by by apply Forall_take.
    rewrite length_take. by replace (j `min` length msgs)%nat with j by lia.
  - simpl. rewrite length_fmap, Nat.add_0_r.
    rewrite take_app_le by (rewrite length_fmap; lia).
    rewrite take_ge by (rewrite length_fmap; lia).
    by rewrite quota_failures_all.
Qed.

(** X5.  Under quota failures alone the record loop keeps rotating and
    counts no attempt.  With [4 * k] failures in a row, from a counter of
    0, followed by a usable reply: every failure is a call of the
    endpoint, the [j]-th sent to the model [j / 4] places further in the
    list, cyclically; the reply comes from the model [k] places further;
    the loop ends there with the counter at 0.  After four failures for
    every model of the list the loop is back at the model it started
    from. *)
Theorem hadith_retry_loop_quota_cycles models data tr attempts k msgs mi w r :
  (mi < length models)%nat →
  (attempts < 5)%nat →
  length msgs = (4 * k)%nat →
  Forall (λ msg, quota_exhausted msg = true) msgs →
  json r ≠ PNone →
  hadith_retry_loop models data ((Raised <$> msgs) ++ Reply r :: tr)
    attempts mi 0 w =
    Done (json r, ((mi + k) `mod` length models)%nat, 0%nat)
      {| fs := fs w; error_hadith_numbers := error_hadith_numbers w;
         events :=
           events w ++
           imap (λ j msg,
                   EvTranslateHadith (model_at models (mi + j / 4)) data
                     (Raised msg)) msgs
           ++ [EvTranslateHadith (model_at models (mi + k)) data (Reply r)] |}
      tr
  ∧ (k = length models → ((mi + k) `mod` length models)%nat = mi).
Proof.
  intros Hmi Ha Hlen Hall Hr. split.
  - rewrite (hadith_retry_loop_failures models data r tr Hr);
      [|done|lia|by apply Forall_fmap, Forall_true
       |rewrite returned_attempts_raised; lia].
    rewrite (retry_calls_all_quota (λ m o, EvTranslateHadith m data o))
      by done.
    rewrite quota_failures_all by done.
    unfold rotated_index, rotated_count. rewrite Hlen, Nat.add_0_l.
    rewrite (Nat.mul_comm 4 k), Nat.div_mul, Nat.Div0.mod_mul by lia.
    done.
  - intros ->.
    replace (mi + length models)%nat with (mi + 1 * length models)%nat by lia.
    rewrite Nat.Div0.mod_add. by apply Nat.mod_small.
Qed.

Lemma hadith_retry_loop_quota_cycles_witness :
  hadith_retry_loop MODELS (make_translation_data (sample_hadith 1 1))
    ((Raised <$> replicate 8 "429 RESOURCE_EXHAUSTED")
       ++ Reply {| text := "{...}"; json := PObject (sample_translated 1) |}
       :: [])
    0 7 0 empty_world =
    Done (PObject (sample_translated 1), 1%nat, 0%nat)
      {| fs := ∅; error_hadith_numbers := [];
         events :=
           replicate 4
             (EvTranslateHadith "learnlm-1.5-pro-experimental"
                (make_translation_data (sample_hadith 1 1))
                (Raised "429 RESOURCE_EXHAUSTED"))
           ++ replicate 4
                (EvTranslateHadith "gemini-2.0-flash"
                   (make_translation_data (sample_hadith 1 1))
                   (Raised "429 RESOURCE_EXHAUSTED"))
           ++ [EvTranslateHadith "gemini-2.0-flash-lite"
                 (make_translation_data (sample_hadith 1 1))
                 (translated_reply 1)] |}
      []
  ∧ (2%nat = length MODELS → ((7 + 2) `mod` length MODELS)%nat = 7%nat).
Proof.
  apply (hadith_retry_loop_quota_cycles MODELS
           (make_translation_data (sample_hadith 1 1)) []
           0 2 (replicate 8 "429 RESOURCE_EXHAUSTED") 7 empty_world
           {| text := "{...}"; json := PObject (sample_translated 1) |}).
  - simpl. lia.
  - lia.
  - reflexivity.
  - repeat constructor.
  - done.
Defined.

(** The chapter-name loop on [4 * k] quota failures in a row, from a
    counter of 0, while the attempts allow: the index advances by [k] and
    every failure is an attempt. *)
Lemma translate_chapter_name_loop_quota_run models name limit tr k :
  ∀ msgs attempts mi w,
    (mi < length models)%nat →
    (attempts + 4 * k ≤ limit)%nat →
    length msgs = (4 * k)%nat →
    Forall (λ msg, quota_exhausted msg = true) msgs →
    ∃ evs,
      calls evs = Raised <$> msgs
      ∧ Forall (chapter_call_of name) evs
      ∧ translate_chapter_name_loop models name limit ((Raised <$> msgs) ++ tr)
          attempts mi 0 w =
        translate_chapter_name_loop models name limit tr (attempts + 4 * k)
          ((mi + k) `mod` length models)%nat 0
          {| fs := fs w; error_hadith_numbers := error_hadith_numbers w;
             events := events w ++ evs |}.
Proof.
  induction k as [|k IH]; intros msgs attempts mi w Hmi Ha Hlen Hall.
  - destruct msgs; [|done]. exists []. simpl.
    rewrite !Nat.add_0_r, Nat.mod_small, app_nil_r, world_eta by done.
    by rewrite calls_nil.
  - destruct msgs as [|m1 [|m2 [|m3 [|m4 msgs]]]]; simpl in Hlen; try lia.
    apply Forall_cons in Hall as [H1 Hall]. apply Forall_cons in Hall as [H2 Hall].
    apply Forall_cons in Hall as [H3 Hall]. apply Forall_cons in Hall as [H4 Hall].
    destruct (lookup_lt_is_Some_2 models mi Hmi) as [model Hm].
    destruct (IH msgs (S (S (S (S attempts)))) ((mi + 1) `mod` length models)%nat
                (log (EvTranslateChapter model name (Raised m4))
                   (log (EvTranslateChapter model name (Raised m3))
                      (log (EvTranslateChapter model name (Raised m2))
                         (log (EvTranslateChapter model name (Raised m1)) w)))))
      as (evs & Hcalls & Hev & Heq);
      [apply Nat.mod_upper_bound; lia|lia|lia|done|].
    exists (EvTranslateChapter model name (Raised m1)
            :: EvTranslateChapter model name (Raised m2)
            :: EvTranslateChapter model name (Raised m3)
            :: EvTranslateChapter model name (Raised m4) :: evs).
    split; [by rewrite !calls_cons, Hcalls|].
    split; [repeat (constructor; [by eexists _, _|]); done|].
    cbn [fmap list_fmap app].
    rewrite (translate_chapter_name_loop_quota _ _ _ _ _ _ _ _ model) by (done || lia).
    rewrite on_resource_exhausted_below by lia. cbn [fst snd].
    rewrite (translate_chapter_name_loop_quota _ _ _ _ _ _ _ _ model) by (done || lia).
    rewrite on_resource_exhausted_below by lia. cbn [fst snd].
    rewrite (translate_chapter_name_loop_quota _ _ _ _ _ _ _ _ model) by (done || lia).
    rewrite on_resource_exhausted_below by lia. cbn [fst snd].
    rewrite (translate_chapter_name_loop_quota _ _ _ _ _ _ _ _ model) by (done || lia).
    rewrite on_resource_exhausted_rotates by lia. cbn [fst snd].
    replace (list_fmap string outcome Raised msgs) with (Raised <$> msgs) by done.
    rewrite Heq. rewrite Nat.Div0.add_mod_idemp_l.
    replace (mi + 1 + k)%nat with (mi + S k)%nat by lia.
    replace (S (S (S (S attempts))) + 4 * k)%nat
      with (attempts + 4 * S k)%nat by lia.
    simpl. by rewrite <- !app_assoc.
Qed.

(** X6.  A chapter name that meets nothing but quota failures is given up
    after exactly 20 calls: the 20 failures are consumed, no name comes
    back, and the model index handed back to the caller is five models
    further, cyclically. *)
Theorem translate_chapter_name_gives_up models name tr msgs mi w :
  (mi < length models)%nat →
  length msgs = 20%nat →
  Forall (λ msg, quota_exhausted msg = true) msgs →
  ∃ evs,
    calls evs = Raised <$> msgs
    ∧ Forall (chapter_call_of name) evs
    ∧ translate_chapter_name models name mi 0 w ((Raised <$> msgs) ++ tr) =
      Done (None, ((mi + 5) `mod` length models)%nat)
        {| fs := fs w; error_hadith_numbers := error_hadith_numbers w;
           events := events w ++ evs |}
        tr.
Proof.
  intros Hmi Hlen Hall. unfold translate_chapter_name.
  destruct (translate_chapter_name_loop_quota_run models name 20 tr 5 msgs 0 mi w)
    as (evs & Hcalls & Hev & Heq); [done|lia|done|done|].
  exists evs. do 2 (split; [done|]). rewrite Heq.
  by destruct tr.
Qed.

Lemma translate_chapter_name_gives_up_witness :
  ∃ evs,
    calls evs = Raised <$> replicate 20 "429 RESOURCE_EXHAUSTED"
    ∧ Forall (chapter_call_of "Revelation") evs
    ∧ translate_chapter_name MODELS "Revelation" 6 0 empty_world
        ((Raised <$> replicate 20 "429 RESOURCE_EXHAUSTED")
           ++ [name_reply "Wahyu"]) =
      Done (None, ((6 + 5) `mod` length MODELS)%nat)
        {| fs := fs empty_world;
           error_hadith_numbers := error_hadith_numbers empty_world;
           events := events empty_world ++ evs |}
        [name_reply "Wahyu"].
Proof.
  apply (translate_chapter_name_gives_up MODELS "Revelation"
           [name_reply "Wahyu"] (replicate 20 "429 RESOURCE_EXHAUSTED") 6
           empty_world).
  - simpl. lia.
  - reflexivity.
  - repeat constructor.
Defined.

(** ** Rotation only on quota failures *)

Lemma rotation_path_without_quota models i evs j :
  rotation_path models i evs j →
  Forall (λ e, quota_failure e = false) evs →
  j = i ∧ Forall (λ e, ∀ m, model_of e = Some m → models !! i = Some m) evs.
Proof.
  induction 1 as [i|i p evs j _ IH|i e evs j model Hm He _ IH
                  |i e evs j model msg Hm He Ho Hq _ _];
    intros Hall.
  - split; [done|constructor].
  - apply Forall_cons in Hall as [_ Hall]. destruct (IH Hall) as [-> Hev].
    split; [done|]. constructor; [done|exact Hev].
  - apply Forall_cons in Hall as [_ Hall]. destruct (IH Hall) as [-> Hev].
    split; [done|]. constructor; [|exact Hev]. intros m. rewrite He.
    by intros [= <-].
  - apply Forall_cons in Hall as [Hnq _]. unfold quota_failure in Hnq.
    rewrite Ho in Hnq. congruence.
Qed.

(** X7.  The model changes on quota failures only: in the processing of a
    book in which no call fails on quota, every call, for chapter names
    and for records alike, is sent to the first model of the list. *)
Theorem process_book_first_model_without_quota remote book_name w tr :
  ∃ evs,
    events (world_of (process_book remote book_name w tr)) = events w ++ evs
    ∧ (Forall (λ e, quota_failure e = false) evs →
       Forall (λ e, ∀ m, model_of e = Some m → m = "gemini-2.0-flash") evs).
Proof.
  destruct (process_book_run remote book_name w tr)
    as (evs1 & evs2 & j & Hev & _ & _ & _ & Hrp & _).
  exists (evs1 ++ evs2). split; [done|]. intros Hnq.
  destruct (rotation_path_without_quota _ _ _ _ Hrp Hnq) as [_ Hall].
  eapply Forall_impl; [exact Hall|]. intros e He m Hm.
  specialize (He m Hm). by injection He.
Qed.

(** ** The loops stay in order *)

Lemma hadith_retry_loop_in_order models data tr :
  ∀ attempts mi c w,
    (mi < length models)%nat →
    in_order (hadith_retry_loop models data tr attempts mi c w).
Proof.
  induction tr as [|o tr IH]; intros attempts mi c w Hmi;
    cbn [hadith_retry_loop];
    destruct (5 <=? attempts)%nat; try done;
    destruct (lookup_lt_is_Some_2 models mi Hmi) as [model ->]; try done.
  destruct o as [r| |msg]; [destruct (json r)| |
    destruct (quota_exhausted msg);
      [pose proof (on_resource_exhausted_in_range models mi c Hmi);
       destruct (on_resource_exhausted models mi c)|]];
    simpl in *; auto.
Qed.

Lemma translate_chapter_name_loop_in_order models name limit tr :
  ∀ attempts mi c w,
    in_order (translate_chapter_name_loop models name limit tr attempts mi c w).
Proof.
  induction tr as [|o tr IH]; intros attempts mi c w;
    cbn [translate_chapter_name_loop];
    destruct (limit <=? attempts)%nat; try done;
    destruct (models !! mi) as [model|]; try done.
  destruct o as [r| |msg]; try done.
  destruct (quota_exhausted msg); [|done].
  destruct (on_resource_exhausted models mi c). apply IH.
Qed.

Lemma process_hadiths_loop_in_order models hs :
  ∀ acc succ mi c w tr,
    (mi < length models)%nat →
    in_order (process_hadiths_loop models hs acc succ mi c w tr).
Proof.
  induction hs as [|h hs IH]; intros acc succ mi c w tr Hmi;
    cbn [process_hadiths_loop]; [done|].
  pose proof (hadith_retry_loop_in_order models (make_translation_data h) tr
                0 mi c w Hmi) as Hord.
  destruct (hadith_retry_loop_run models (make_translation_data h) tr 0 mi c w)
    as (evs & mi' & _ & _ & _ & _ & Hrp & Hd).
  destruct (hadith_retry_loop models (make_translation_data h) tr 0 mi c w)
    as [[[v mi2] c2] w1 tr1| | | |]; simpl in *; try done.
  destruct (Hd _ _ _ _ _ eq_refl) as [-> _].
  pose proof (rotation_path_in_range _ _ _ _ Hrp Hmi).
  destruct v; try done; by apply IH.
Qed.

Lemma process_hadiths_in_order models chapter_id all mi c w tr :
  (mi < length models)%nat →
  in_order (process_hadiths models chapter_id all mi c w tr).
Proof.
  intros Hmi. unfold process_hadiths.
  pose proof (process_hadiths_loop_in_order models
                (filter (λ h, h_chapterId h = chapter_id) all) [] 0 mi c w tr Hmi)
    as Hord.
  destruct (process_hadiths_loop _ _ _ _ _ _ _ _)
    as [[[[acc succ] mi2] c2] w1 tr1| | | |]; simpl in *; try done.
  by destruct (succ =? 0)%nat.
Qed.

Lemma process_chapter_in_order models book_name all c mi cnt w tr :
  (mi < length models)%nat →
  in_order (process_chapter models book_name all c mi cnt w tr).
Proof.
  intros Hmi. unfold process_chapter.
  assert (Hstep : ∀ todo (k : list translated → file)
                    (guard : list translated → bool) path,
    in_order
      (bind (process_hadiths models (c_id c) todo mi cnt w tr)
         (λ '(res, mi1, c1) w' tr',
            match res with
            | Some (t :: l) =>
              if guard (t :: l)
              then Done (mi1, c1) (write path (k (t :: l)) w') tr'
              else Raise UncaughtError w'
            | _ => Done (mi1, c1) w' tr'
            end))).
  { intros todo k guard path.
    pose proof (process_hadiths_in_order models (c_id c) todo mi cnt w tr Hmi)
      as Hord.
    destruct (process_hadiths models (c_id c) todo mi cnt w tr)
      as [[[res mi1] c1] w1 tr1| | | |]; simpl in *; try done.
    destruct res as [[|t l]|]; try done. by destruct (guard (t :: l)). }
  destruct (fs w !! chapter_path book_name (c_id c)) as [f|].
  - destruct (load_existing_hadiths f) as [existing|]; [|done].
    destruct (missing_hadiths existing _) as [|h0 rest] eqn:Hmiss; [done|].
    apply (Hstep (h0 :: rest)
             (λ new, ChapterJson (sort_by_id (existing ++ new)))
             (λ new, forallb has_int_id (existing ++ new))).
  - apply (Hstep _ ChapterJson (λ _, true)).
Qed.

Lemma chapters_loop_in_order models book_name all cs :
  ∀ mi cnt w tr,
    (mi < length models)%nat →
    in_order (chapters_loop models book_name all cs mi cnt w tr).
Proof.
  induction cs as [|c cs IH]; intros mi cnt w tr Hmi; cbn [chapters_loop];
    [done|].
  pose proof (process_chapter_in_order models book_name all c mi cnt w tr Hmi)
    as Hord.
  destruct (process_chapter_run models book_name all c mi cnt w tr)
    as (evs & mi' & _ & _ & Hrp & _ & _ & Hd).
  destruct (process_chapter models book_name all c mi cnt w tr)
    as [[mi2 c2] w1 tr1| | | |]; simpl in *; try done.
  destruct (Hd _ _ _ _ eq_refl) as (-> & _ & _).
  apply IH. eapply rotation_path_in_range; eauto.
Qed.

Lemma chapter_names_loop_in_order models ids cs :
  ∀ tcs mi cnt w tr,
    in_order (chapter_names_loop models ids cs tcs mi cnt w tr).
Proof.
  induction cs as [|c cs IH]; intros tcs mi cnt w tr;
    cbn [chapter_names_loop]; [done|].
  destruct (decide (c_id c ∈ ids)); [apply IH|].
  unfold translate_chapter_name.
  pose proof (translate_chapter_name_loop_in_order models (chapter_title c) 20
                tr 0 mi cnt w) as Hord.
  destruct (translate_chapter_name_loop models (chapter_title c) 20 tr 0 mi cnt w)
    as [[title mi2] w1 tr1| | | |]; simpl in *; try done.
  destruct title as [[|a malay]|]; apply IH.
Qed.

(** [process_book] stays in order, or the fetch of the book has raised. *)
Lemma process_book_in_order remote book_name w tr :
  in_order (process_book remote book_name w tr)
  ∨ (process_book remote book_name w tr = Raise RequestException w
     ∧ remote (lower book_name) = FetchRequestError).
Proof.
  unfold process_book.
  destruct (remote (lower book_name)) as [b| |]; [|by left|by right].
  left. unfold translate_chapter_names.
  destruct (load_chapter_names (fs w !! chapter_names_path book_name))
    as [loaded|]; [|done].
  set (ids := list_to_set (tc_id <$> loaded) : gset Z).
  pose proof (chapter_names_loop_in_order MODELS ids (b_chapters b) loaded
                0 0 w tr) as Hord.
  destruct (chapter_names_loop_run MODELS ids (b_chapters b) loaded 0 0 w tr)
    as (evs1 & mi1 & _ & _ & _ & _ & Hrp1 & _ & Hd1).
  destruct (chapter_names_loop MODELS ids (b_chapters b) loaded 0 0 w tr)
    as [[tcs mi2] w1 tr1| | | |]; simpl in *; try done.
  destruct (Hd1 _ _ _ _ eq_refl) as (-> & _ & _).
  assert (Hmi : (mi1 < length MODELS)%nat).
  { eapply rotation_path_in_range; eauto. simpl. lia. }
  match goal with
  | |- in_order (bind ?r _) =>
    pose proof (chapters_loop_in_order MODELS book_name (b_hadiths b)
                  (b_chapters b) mi1 0
                  (write (chapter_names_path book_name)
                     (IndexJson {| ix_id := b_id b; ix_metadata := b_metadata b;
                                   ix_chapters := tcs |}) w1) tr1 Hmi) as Hord2;
    destruct r as [[mi3 c3] w3 tr3| | | |]; simpl in *; done
  end.
Qed.

(** ** Every record is accounted for *)

(** The [for] loop of [process_hadiths]: the error list only grows, by the
    numbers of records of the work list, in order; when the loop ends the
    records split into those translated, whose translations come out in
    order, each with the Arabic text of its record, and those failed,
    whose numbers were added to the error list. *)
Lemma process_hadiths_loop_account models hs :
  ∀ acc succ mi c w tr,
    ∃ failed,
      failed `sublist_of` hs
      ∧ error_hadith_numbers
          (world_of (process_hadiths_loop models hs acc succ mi c w tr)) =
        error_hadith_numbers w ++ (h_idInBook <$> failed)
      ∧ ∀ acc2 succ2 mi2 c2 w' tr',
          process_hadiths_loop models hs acc succ mi c w tr =
            Done (acc2, succ2, mi2, c2) w' tr' →
          ∃ ok new,
            ok `sublist_of` hs ∧ hs ≡ₚ ok ++ failed
            ∧ Forall2 (λ h t, t_arabic_text t = h_arabic h) ok new
            ∧ acc2 = acc ++ new ∧ succ2 = (succ + length new)%nat.
Proof.
  induction hs as [|h hs IH]; intros acc succ mi c w tr;
    cbn [process_hadiths_loop].
  { exists []. simpl. rewrite app_nil_r. do 2 (split; [done|]).
    intros acc2 succ2 mi2 c2 w' tr' [= <- <- _ _ _ _].
    exists [], []. rewrite app_nil_r, Nat.add_0_r.
    split; [done|]. split; [done|]. split; [by apply Forall2_nil|].
    by rewrite app_nil_r. }
  destruct (hadith_retry_loop_run models (make_translation_data h) tr 0 mi c w)
    as (evs1 & mi1 & _ & _ & Herr1 & _).
  destruct (hadith_retry_loop models (make_translation_data h) tr 0 mi c w)
    as [[[v mi2] c2] w1 tr1| | | |]; simpl in *;
    try (exists []; simpl; rewrite app_nil_r;
         split; [apply sublist_nil_l|]; split; [done|]; intros; discriminate).
  assert (Hfail :
    ∃ failed,
      failed `sublist_of` h :: hs
      ∧ error_hadith_numbers
          (world_of (process_hadiths_loop models hs acc succ mi2 0
                       (append_error (h_idInBook h) w1) tr1)) =
        error_hadith_numbers w ++ (h_idInBook <$> failed)
      ∧ ∀ acc3 succ3 mi3 c3 w' tr',
          process_hadiths_loop models hs acc succ mi2 0
            (append_error (h_idInBook h) w1) tr1 =
            Done (acc3, succ3, mi3, c3) w' tr' →
          ∃ ok new,
            ok `sublist_of` h :: hs ∧ h :: hs ≡ₚ ok ++ failed
            ∧ Forall2 (λ h t, t_arabic_text t = h_arabic h) ok new
            ∧ acc3 = acc ++ new ∧ succ3 = (succ + length new)%nat).
  { destruct (IH acc succ mi2 0%nat (append_error (h_idInBook h) w1) tr1)
      as (failed & Hsub & Herr & Hd).
    exists (h :: failed). split; [by apply sublist_skip|].
    split; [rewrite Herr; simpl; by rewrite Herr1, <- app_assoc|].
    intros acc3 succ3 mi3 c3 w' tr' Heq.
    destruct (Hd _ _ _ _ _ _ Heq) as (ok & new & Hok & Hperm & Hall & -> & ->).
    exists ok, new. split; [by apply sublist_cons|].
    split; [|done]. rewrite Hperm. apply Permutation_middle. }
  destruct v as [| | |t]; try exact Hfail.
  { exists []. simpl. rewrite app_nil_r.
    split; [apply sublist_nil_l|]. split; [done|]. intros; discriminate. }
  destruct (IH (acc ++ [set_arabic_text t (h_arabic h)]) (S succ) mi2 0%nat w1 tr1)
    as (failed & Hsub & Herr & Hd).
  exists failed. split; [by apply sublist_cons|].
  split; [by rewrite Herr, Herr1|].
  intros acc3 succ3 mi3 c3 w' tr' Heq.
  destruct (Hd _ _ _ _ _ _ Heq) as (ok & new & Hok & Hperm & Hall & -> & ->).
  exists (h :: ok), (set_arabic_text t (h_arabic h) :: new).
  split; [by apply sublist_skip|].
  split; [simpl; by rewrite Hperm|].
  split; [by constructor|].
  split; [by rewrite <- app_assoc|simpl; lia].
Qed.

Lemma process_hadiths_account models chapter_id all
    mi c w tr res mi2 c2 w' tr' :
  process_hadiths models chapter_id all mi c w tr = Done (res, mi2, c2) w' tr' →
  ∃ ok failed new,
    ok `sublist_of` filter (λ h, h_chapterId h = chapter_id) all
    ∧ failed `sublist_of` filter (λ h, h_chapterId h = chapter_id) all
    ∧ filter (λ h, h_chapterId h = chapter_id) all ≡ₚ ok ++ failed
    ∧ Forall2 (λ h t, t_arabic_text t = h_arabic h) ok new
    ∧ error_hadith_numbers w' =
      error_hadith_numbers w ++ (h_idInBook <$> failed)
    ∧ res = (if new is [] then None else Some new)
    ∧ fs w' = fs w.
Proof.
  intros Hrun.
  destruct (process_hadiths_run models chapter_id all mi c w tr)
    as (_ & _ & _ & Hfs & _).
  rewrite Hrun in Hfs. simpl in Hfs.
  unfold process_hadiths in Hrun.
  destruct (process_hadiths_loop_account models
              (filter (λ h, h_chapterId h = chapter_id) all) [] 0 mi c w tr)
    as (failed & Hsub & Herr & Hd).
  destruct (process_hadiths_loop models _ [] 0 mi c w tr)
    as [[[[acc succ] mi3] c3] w1 tr1| | | |]; simpl in *; try discriminate.
  destruct (Hd _ _ _ _ _ _ eq_refl) as (ok & new & Hok & Hperm & Hall & -> & ->).
  exists ok, failed, new. simpl in *.
  destruct new as [|t new]; simpl in Hrun; injection Hrun as <- <- <- <- <-;
    repeat split; auto.
Qed.

(** X8.  When [process_hadiths] has gone through its work list, every
    record of the list is accounted for: it is either translated or
    failed.  The translations come back in the order of the records, each
    carrying the Arabic text of its record, whatever the endpoint put in
    that field; the numbers of the failed records are appended, in order,
    to the error list; the disk is untouched; and the result is [None]
    exactly when no record was translated. *)
Theorem process_hadiths_accounts_for_every_record models chapter_id all
    mi c w tr res mi2 c2 w' tr' :
  process_hadiths models chapter_id all mi c w tr = Done (res, mi2, c2) w' tr' →
  ∃ ok failed new,
    ok `sublist_of` filter (λ h, h_chapterId h = chapter_id) all
    ∧ failed `sublist_of` filter (λ h, h_chapterId h = chapter_id) all
    ∧ filter (λ h, h_chapterId h = chapter_id) all ≡ₚ ok ++ failed
    ∧ Forall2 (λ h t, t_arabic_text t = h_arabic h) ok new
    ∧ error_hadith_numbers w' =
      error_hadith_numbers w ++ (h_idInBook <$> failed)
    ∧ res = (if new is [] then None else Some new)
    ∧ fs w' = fs w.
Proof. apply process_hadiths_account. Qed.

Lemma process_hadiths_accounts_for_every_record_witness :
  ∃ ok failed new,
    ok `sublist_of`
      filter (λ h, h_chapterId h = 1) [sample_hadith 1 1; sample_hadith 2 1]
    ∧ failed `sublist_of`
        filter (λ h, h_chapterId h = 1) [sample_hadith 1 1; sample_hadith 2 1]
    ∧ filter (λ h, h_chapterId h = 1) [sample_hadith 1 1; sample_hadith 2 1]
        ≡ₚ ok ++ failed
    ∧ Forall2 (λ h t, t_arabic_text t = h_arabic h) ok new
    ∧ error_hadith_numbers
        {| fs := ∅; error_hadith_numbers := [1];
           events :=
             [ EvTranslateHadith "gemini-2.0-flash"
                 (make_translation_data (sample_hadith 1 1))
                 (Reply {| text := "{}"; json := PFalsy |});
               EvTranslateHadith "gemini-2.0-flash"
                 (make_translation_data (sample_hadith 2 1))
                 (translated_reply 2) ] |} =
      error_hadith_numbers empty_world ++ (h_idInBook <$> failed)
    ∧ Some [sample_translated 2] = (if new is [] then None else Some new)
    ∧ fs {| fs := ∅; error_hadith_numbers := [1];
            events :=
              [ EvTranslateHadith "gemini-2.0-flash"
                  (make_translation_data (sample_hadith 1 1))
                  (Reply {| text := "{}"; json := PFalsy |});
                EvTranslateHadith "gemini-2.0-flash"
                  (make_translation_data (sample_hadith 2 1))
                  (translated_reply 2) ] |} = fs empty_world.
Proof.
  apply (process_hadiths_accounts_for_every_record MODELS 1
           [sample_hadith 1 1; sample_hadith 2 1] 0 0 empty_world
           [Reply {| text := "{}"; json := PFalsy |}; translated_reply 2]
           (Some [sample_translated 2]) 0 0 _ []).
  vm_compute. reflexivity.
Defined.

Lemma process_chapter_account models book_name all c mi cnt w tr mi2 c2 w' tr' :
  process_chapter models book_name all c mi cnt w tr = Done (mi2, c2) w' tr' →
  ∃ ok failed new,
    ok `sublist_of` work_list book_name all c w
    ∧ failed `sublist_of` work_list book_name all c w
    ∧ work_list book_name all c w ≡ₚ ok ++ failed
    ∧ Forall2 (λ h t, t_arabic_text t = h_arabic h) ok new
    ∧ error_hadith_numbers w' =
      error_hadith_numbers w ++ (h_idInBook <$> failed)
    ∧ fs w' =
      match new with
      | [] => fs w
      | _ =>
        <[chapter_path book_name (c_id c) :=
            ChapterJson
              match fs w !! chapter_path book_name (c_id c) with
              | Some f =>
                sort_by_id (default [] (load_existing_hadiths f) ++ new)
              | None => new
              end]> (fs w)
      end.
Proof.
  unfold process_chapter, work_list.
  set (path := chapter_path book_name (c_id c)).
  set (hs := filter (λ h, h_chapterId h = c_id c) all).
  assert (Hstep : ∀ (todo : list hadith) (content : list translated → file)
                    (guard : list translated → bool),
    filter (λ h, h_chapterId h = c_id c) todo = todo →
    bind (process_hadiths models (c_id c) todo mi cnt w tr)
      (λ '(res, mi1, c1) w1 tr1,
         match res with
         | Some (t :: l) =>
           if guard (t :: l)
           then Done (mi1, c1) (write path (content (t :: l)) w1) tr1
           else Raise UncaughtError w1
         | _ => Done (mi1, c1) w1 tr1
         end) = Done (mi2, c2) w' tr' →
    ∃ ok failed new,
      ok `sublist_of` todo ∧ failed `sublist_of` todo ∧ todo ≡ₚ ok ++ failed
      ∧ Forall2 (λ h t, t_arabic_text t = h_arabic h) ok new
      ∧ error_hadith_numbers w' =
        error_hadith_numbers w ++ (h_idInBook <$> failed)
      ∧ fs w' =
        match new with
        | [] => fs w
        | _ => <[path := content new]> (fs w)
        end).
  { intros todo content guard Hfilter Hrun.
    destruct (process_hadiths models (c_id c) todo mi cnt w tr)
      as [[[res mi1] c1] w1 tr1| | | |] eqn:Hph; simpl in Hrun;
      try discriminate.
    apply process_hadiths_account in Hph
      as (ok & failed & new & Hok & Hfailed & Hperm & Hall & Herr & -> & Hfs).
    rewrite Hfilter in Hok, Hfailed, Hperm.
    exists ok, failed, new. do 4 (split; [done|]).
    destruct new as [|t l]; [|destruct (guard (t :: l)); [|done]];
      injection Hrun as <- <- <- <-; simpl; by rewrite ?Hfs. }
  destruct (fs w !! path) as [f|] eqn:Hf.
  - destruct (load_existing_hadiths f) as [existing|] eqn:Hload; [|done].
    destruct (missing_hadiths existing hs) as [|h0 rest] eqn:Hmiss.
    + intros [= <- <- <- <-]. exists [], [], []. simpl.
      rewrite app_nil_r. repeat split; done.
    + intros Hrun.
      apply (Hstep (h0 :: rest)
               (λ new, ChapterJson (sort_by_id (existing ++ new)))
               (λ new, forallb has_int_id (existing ++ new))) in Hrun.
      * exact Hrun.
      * rewrite <- Hmiss. apply filter_chapter_missing.
  - intros Hrun. apply (Hstep hs ChapterJson (λ _, true)) in Hrun; [exact Hrun|].
    subst hs. apply list_filter_filter_l. auto.
Qed.

(** X9.  When a chapter has been processed, its records to translate are
    each translated or failed, and the numbers of the failed ones are on
    the error list.  If none was translated the disk is as it was: no
    file is created or rewritten, and the chapter is tried again in full
    by the next run.  Otherwise one file changes, the chapter's own: a new
    file holds the translations in the order of the book; an existing
    file is replaced by its records followed by the new translations,
    sorted by identifier. *)
Theorem process_chapter_leaves models book_name all c mi cnt w tr
    mi2 c2 w' tr' :
  process_chapter models book_name all c mi cnt w tr = Done (mi2, c2) w' tr' →
  ∃ ok failed new,
    ok `sublist_of` work_list book_name all c w
    ∧ failed `sublist_of` work_list book_name all c w
    ∧ work_list book_name all c w ≡ₚ ok ++ failed
    ∧ Forall2 (λ h t, t_arabic_text t = h_arabic h) ok new
    ∧ error_hadith_numbers w' =
      error_hadith_numbers w ++ (h_idInBook <$> failed)
    ∧ fs w' =
      match new with
      | [] => fs w
      | _ =>
        <[chapter_path book_name (c_id c) :=
            ChapterJson
              match fs w !! chapter_path book_name (c_id c) with
              | Some f =>
                sort_by_id (default [] (load_existing_hadiths f) ++ new)
              | None => new
              end]> (fs w)
      end.
Proof. apply process_chapter_account. Qed.

Lemma process_chapter_leaves_witness :
  ∃ ok failed new,
    ok `sublist_of`
      work_list "bukhari"
        [sample_hadith 1 1; sample_hadith 2 1; sample_hadith 3 2]
        (sample_chapter 1 "Revelation") resume_world
    ∧ failed `sublist_of`
        work_list "bukhari"
          [sample_hadith 1 1; sample_hadith 2 1; sample_hadith 3 2]
          (sample_chapter 1 "Revelation") resume_world
    ∧ work_list "bukhari"
        [sample_hadith 1 1; sample_hadith 2 1; sample_hadith 3 2]
        (sample_chapter 1 "Revelation") resume_world ≡ₚ ok ++ failed
    ∧ Forall2 (λ h t, t_arabic_text t = h_arabic h) ok new
    ∧ error_hadith_numbers
        (write (chapter_path "bukhari" 1)
           (ChapterJson [sample_translated 1; sample_translated 2])
           (log (EvTranslateHadith "gemini-2.0-flash"
                   (make_translation_data (sample_hadith 1 1))
                   (translated_reply 1)) resume_world)) =
      error_hadith_numbers resume_world ++ (h_idInBook <$> failed)
    ∧ fs (write (chapter_path "bukhari" 1)
            (ChapterJson [sample_translated 1; sample_translated 2])
            (log (EvTranslateHadith "gemini-2.0-flash"
                    (make_translation_data (sample_hadith 1 1))
                    (translated_reply 1)) resume_world)) =
      match new with
      | [] => fs resume_world
      | _ =>
        <[chapter_path "bukhari" (c_id (sample_chapter 1 "Revelation")) :=
            ChapterJson
              match
                fs resume_world
                  !! chapter_path "bukhari" (c_id (sample_chapter 1 "Revelation"))
              with
              | Some f =>
                sort_by_id (default [] (load_existing_hadiths f) ++ new)
              | None => new
              end]> (fs resume_world)
      end.
Proof.
  apply (process_chapter_leaves MODELS "bukhari"
           [sample_hadith 1 1; sample_hadith 2 1; sample_hadith 3 2]
           (sample_chapter 1 "Revelation") 0 0 resume_world
           [translated_reply 1] 0 0 _ []).
  vm_compute. reflexivity.
Defined.

(** ** The merge sort is the stable sort *)

Lemma insert_by_id_filter x l k :
  filter (λ t, sort_key t = k) (insert_by_id x l) =
  filter (λ t, sort_key t = k) (x :: l).
Proof.
  induction l as [|y l IH]; [done|]. cbn [insert_by_id].
  destruct (Z.leb_spec (sort_key x) (sort_key y)) as [Hxy|Hxy]; [done|].
  rewrite filter_cons, IH, !filter_cons.
  destruct (decide (sort_key y = k)); destruct (decide (sort_key x = k));
    try done.
  lia.
Qed.

(** X10.  The sort of the resume merge behaves as Python's [list.sort]
    with the key [int(x["id"])]: the result is in ascending order of the
    key, it holds the same records as the list, no more and no fewer, and
    records with the same key keep their order, whether they hold it as a
    number or as a string. *)
Theorem sort_by_id_is_stable_sort l :
  is_sorted_by_id (sort_by_id l) = true
  ∧ sort_by_id l ≡ₚ l
  ∧ ∀ k, filter (λ t, sort_key t = k) (sort_by_id l) =
         filter (λ t, sort_key t = k) l.
Proof.
  split; [apply sort_by_id_sorted|]. split; [apply sort_by_id_perm|].
  intros k. induction l as [|x l IH]; [done|]. simpl.
  by rewrite insert_by_id_filter, !filter_cons, IH.
Qed.

(** ** Paths *)

Lemma string_app_inj_r a b s : a +:+ s = b +:+ s → a = b.
Proof.
  intros Heq.
  assert (Hlen : String.length a = String.length b).
  { apply (f_equal String.length) in Heq.
    rewrite !string_length_app in Heq. lia. }
  apply (f_equal (string_take (String.length a))) in Heq.
  rewrite string_take_app in Heq. rewrite Hlen in Heq.
  by rewrite string_take_app in Heq.
Qed.

Lemma error_path_not_in_book book_name :
  error_path ≠ chapter_names_path book_name
  ∧ ∀ i, error_path ≠ chapter_path book_name i.
Proof. split; [|intros i]; intros Heq; by vm_compute in Heq. Qed.

(** X11.  The files of a book do not collide: two chapters with different
    identifiers have different files, no chapter file is the chapter-name
    index, and neither is the error file. *)
Theorem book_paths_distinct book_name i j :
  (chapter_path book_name i = chapter_path book_name j → i = j)
  ∧ chapter_path book_name i ≠ chapter_names_path book_name
  ∧ chapter_path book_name i ≠ error_path
  ∧ chapter_names_path book_name ≠ error_path.
Proof.
  split; [|split; [apply chapter_path_not_names|]].
  - unfold chapter_path. intros Heq.
    apply (inj (String.app _)) in Heq. simpl in Heq. injection Heq as Heq.
    apply (string_app_inj_r (pretty i) (pretty j) ".json") in Heq.
    by apply (inj pretty) in Heq.
  - destruct (error_path_not_in_book book_name) as [H1 H2].
    split; intros Heq; [by apply (H2 i)|by apply H1].
Qed.

(** ** The error list and the files over a whole run *)

Lemma process_hadiths_errors models chapter_id all mi c w tr :
  ∃ failed,
    failed `sublist_of` filter (λ h, h_chapterId h = chapter_id) all
    ∧ error_hadith_numbers
        (world_of (process_hadiths models chapter_id all mi c w tr)) =
      error_hadith_numbers w ++ (h_idInBook <$> failed).
Proof.
  unfold process_hadiths.
  destruct (process_hadiths_loop_account models
              (filter (λ h, h_chapterId h = chapter_id) all) [] 0 mi c w tr)
    as (failed & Hsub & Herr & _).
  exists failed. split; [done|].
  destruct (process_hadiths_loop models _ [] 0 mi c w tr)
    as [[[[acc succ] mi3] c3] w1 tr1| | | |]; simpl in *; try done.
  by destruct (succ =? 0)%nat.
Qed.

Lemma process_chapter_errors models book_name all c mi cnt w tr :
  ∃ failed,
    failed `sublist_of` filter (λ h, h_chapterId h = c_id c) all
    ∧ error_hadith_numbers
        (world_of (process_chapter models book_name all c mi cnt w tr)) =
      error_hadith_numbers w ++ (h_idInBook <$> failed).
Proof.
  unfold process_chapter.
  set (hs := filter (λ h, h_chapterId h = c_id c) all).
  assert (Hnone : ∀ r : result (nat * nat), world_of r = w →
    ∃ failed, failed `sublist_of` hs
      ∧ error_hadith_numbers (world_of r) =
        error_hadith_numbers w ++ (h_idInBook <$> failed)).
  { intros r ->. exists []. simpl. rewrite app_nil_r.
    split; [apply sublist_nil_l|done]. }
  assert (Hstep : ∀ (todo : list hadith) (content : list translated → file)
                    (guard : list translated → bool) path,
    todo `sublist_of` hs →
    ∃ failed, failed `sublist_of` hs
      ∧ error_hadith_numbers
          (world_of
             (bind (process_hadiths models (c_id c) todo mi cnt w tr)
                (λ '(res, mi1, c1) w1 tr1,
                   match res with
                   | Some (t :: l) =>
                     if guard (t :: l)
                     then Done (mi1, c1) (write path (content (t :: l)) w1) tr1
                     else Raise UncaughtError w1
                   | _ => Done (mi1, c1) w1 tr1
                   end))) =
        error_hadith_numbers w ++ (h_idInBook <$> failed)).
  { intros todo content guard path Htodo.
    destruct (process_hadiths_errors models (c_id c) todo mi cnt w tr)
      as (failed & Hsub & Herr).
    exists failed. split.
    { etrans; [exact Hsub|]. etrans; [apply sublist_filter|exact Htodo]. }
    destruct (process_hadiths models (c_id c) todo mi cnt w tr)
      as [[[res mi1] c1] w1 tr1| | | |]; simpl in *; try done.
    destruct res as [[|t l]|]; try done. by destruct (guard (t :: l)). }
  destruct (fs w !! chapter_path book_name (c_id c)) as [f|].
  - destruct (load_existing_hadiths f) as [existing|]; [|by apply Hnone].
    destruct (missing_hadiths existing hs) as [|h0 rest] eqn:Hmiss;
      [by apply Hnone|].
    apply (Hstep (h0 :: rest)
             (λ new, ChapterJson (sort_by_id (existing ++ new)))
             (λ new, forallb has_int_id (existing ++ new))).
    rewrite <- Hmiss. apply sublist_filter.
  - by apply (Hstep hs ChapterJson (λ _, true)).
Qed.

Lemma numbers_of_sublist all (failed : list hadith) (P : hadith → Prop)
    `{!∀ x, Decision (P x)} :
  failed `sublist_of` filter P all →
  Forall (number_of_record_in all) (h_idInBook <$> failed).
Proof.
  intros Hsub. apply Forall_fmap, Forall_forall. intros h Hh.
  exists h. split; [|done].
  eapply elem_of_sublist in Hh; [|exact Hsub].
  by apply list_elem_of_filter in Hh as [_ ?].
Qed.

(** The second loop of [process_book]: the error list only grows, by
    numbers of records of the book. *)
Lemma chapters_loop_errors models book_name all cs :
  ∀ mi cnt w tr,
    ∃ added,
      error_hadith_numbers
        (world_of (chapters_loop models book_name all cs mi cnt w tr)) =
      error_hadith_numbers w ++ added
      ∧ Forall (number_of_record_in all) added.
Proof.
  induction cs as [|c cs IH]; intros mi cnt w tr; cbn [chapters_loop].
  { exists []. simpl. by rewrite app_nil_r. }
  destruct (process_chapter_errors models book_name all c mi cnt w tr)
    as (failed & Hsub & Herr).
  pose proof (numbers_of_sublist _ _ _ Hsub) as Hnum.
  destruct (process_chapter models book_name all c mi cnt w tr)
    as [[mi2 c2] w1 tr1| | | |]; simpl in *;
    try (by exists (h_idInBook <$> failed)).
  destruct (IH mi2 c2 w1 tr1) as (added & Herr2 & Hnum2).
  exists ((h_idInBook <$> failed) ++ added).
  split; [by rewrite Herr2, Herr, app_assoc|by apply Forall_app].
Qed.

(** [process_book]: the error list only grows, by numbers of records of
    the book; and no file is touched but the files of the book. *)
Lemma process_book_effects remote book_name w tr :
  (∃ added,
     error_hadith_numbers (world_of (process_book remote book_name w tr)) =
     error_hadith_numbers w ++ added
     ∧ Forall (number_of_fetched_record remote [book_name]) added)
  ∧ (∀ path, ¬ file_of_book book_name path →
       fs (world_of (process_book remote book_name w tr)) !! path =
       fs w !! path).
Proof.
  unfold process_book.
  assert (Hnone : ∀ r : result unit, world_of r = w →
    (∃ added,
       error_hadith_numbers (world_of r) = error_hadith_numbers w ++ added
       ∧ Forall (number_of_fetched_record remote [book_name]) added)
    ∧ (∀ path, ¬ file_of_book book_name path →
         fs (world_of r) !! path = fs w !! path)).
  { intros r ->. split; [|done]. exists []. by rewrite app_nil_r. }
  destruct (remote (lower book_name)) as [b| |] eqn:Hremote;
    [|by apply Hnone..].
  unfold translate_chapter_names.
  destruct (load_chapter_names (fs w !! chapter_names_path book_name))
    as [loaded|]; [|by apply Hnone].
  set (ids := list_to_set (tc_id <$> loaded) : gset Z).
  destruct (chapter_names_loop_run MODELS ids (b_chapters b) loaded 0 0 w tr)
    as (evs1 & mi1 & _ & Hfs1 & Herr1 & _).
  destruct (chapter_names_loop MODELS ids (b_chapters b) loaded 0 0 w tr)
    as [[tcs mi2] w1 tr1| | | |]; simpl in *;
    try (split; [exists []; by rewrite app_nil_r|intros; by rewrite Hfs1]).
  set (w2 := write (chapter_names_path book_name)
               (IndexJson {| ix_id := b_id b; ix_metadata := b_metadata b;
                             ix_chapters := tcs |}) w1).
  destruct (chapters_loop_errors MODELS book_name (b_hadiths b) (b_chapters b)
              mi2 0 w2 tr1) as (added & Herr2 & Hnum2).
  destruct (chapters_loop_run MODELS book_name (b_hadiths b) (b_chapters b)
              mi2 0 w2 tr1) as (evs2 & mi' & _ & _ & _ & Hfr2 & _).
  assert (Hw : world_of
                 (bind (chapters_loop MODELS book_name (b_hadiths b)
                          (b_chapters b) mi2 0 w2 tr1)
                    (λ _ w3 tr3, Done () w3 tr3)) =
               world_of (chapters_loop MODELS book_name (b_hadiths b)
                           (b_chapters b) mi2 0 w2 tr1)).
  { by destruct (chapters_loop MODELS book_name (b_hadiths b) (b_chapters b)
                   mi2 0 w2 tr1). }
  rewrite Hw. clear Hw. split.
  - exists added. split; [by rewrite Herr2; unfold w2; simpl; rewrite Herr1|].
    eapply Forall_impl; [exact Hnum2|]. intros n Hn.
    exists book_name, b. split; [left|done].
  - intros path Hpath. rewrite Hfr2.
    + unfold w2. simpl. rewrite lookup_insert_ne; [by rewrite Hfs1|].
      intros <-. apply Hpath. by left.
    + intros i ->. apply Hpath. right. by exists i.
Qed.

Lemma number_of_fetched_record_mono remote books books' n :
  books ⊆ books' →
  number_of_fetched_record remote books n →
  number_of_fetched_record remote books' n.
Proof. intros Hsub (book_name & b & Hin & H). exists book_name, b. auto. Qed.

(** The loop over the books: the error list only grows, by numbers of
    records of the books; the error file is not touched; and the loop
    stays in order unless the fetch of one of the books raises. *)
Lemma books_loop_effects remote books :
  ∀ w tr,
    (∃ added,
       error_hadith_numbers (world_of (books_loop remote books w tr)) =
       error_hadith_numbers w ++ added
       ∧ Forall (number_of_fetched_record remote books) added)
    ∧ fs (world_of (books_loop remote books w tr)) !! error_path =
      fs w !! error_path
    ∧ (in_order (books_loop remote books w tr)
       ∨ ∃ w' book_name,
           books_loop remote books w tr = Raise RequestException w'
           ∧ book_name ∈ books
           ∧ remote (lower book_name) = FetchRequestError).
Proof.
  induction books as [|book_name books IH]; intros w tr; cbn [books_loop].
  { split; [exists []; by rewrite app_nil_r|]. split; [done|by left]. }
  destruct (process_book_effects remote book_name w tr)
    as [(added1 & Herr1 & Hnum1) Hfr1].
  assert (Hep : fs (world_of (process_book remote book_name w tr)) !! error_path =
                fs w !! error_path).
  { apply Hfr1. destruct (error_path_not_in_book book_name) as [H1 H2].
    intros [Heq|[i Heq]]; [by apply H1|by apply (H2 i)]. }
  assert (Hnum1' : Forall (number_of_fetched_record remote (book_name :: books))
                     added1).
  { eapply Forall_impl; [exact Hnum1|]. intros n.
    apply number_of_fetched_record_mono. intros x ?%list_elem_of_singleton.
    subst. left. }
  destruct (process_book_in_order remote book_name w tr) as [Hord|[Hraise Hrem]].
  - destruct (process_book remote book_name w tr) as [[] w1 tr1| | e w1| |];
      simpl in *; try done;
      try (split; [by exists added1|]; split; [done|by left]).
    destruct (IH w1 tr1) as ((added2 & Herr2 & Hnum2) & Hep2 & Hord2).
    split.
    { exists (added1 ++ added2). split; [by rewrite Herr2, Herr1, app_assoc|].
      apply Forall_app. split; [done|].
      eapply Forall_impl; [exact Hnum2|]. intros n.
      apply number_of_fetched_record_mono. intros x ?. by right. }
    split; [by rewrite Hep2|].
    destruct Hord2 as [?|(w' & bn & Heq & Hin & Hrem)]; [by left|].
    right. exists w', bn. split; [done|]. split; [by right|done].
  - rewrite Hraise in *. simpl in *.
    split; [by exists added1|]. split; [done|].
    right. exists w, book_name. split; [done|]. split; [left|done].
Qed.

(** X12.  The processing of a book touches no file but the book's own:
    whatever the endpoint answers and however the run ends, a path that
    is neither the book's chapter-name index nor one of its chapter files
    holds what it held before. *)
Theorem process_book_touches_only_its_files remote book_name w tr path :
  ¬ file_of_book book_name path →
  fs (world_of (process_book remote book_name w tr)) !! path = fs w !! path.
Proof.
  intros Hpath.
  destruct (process_book_effects remote book_name w tr) as [_ Hfr].
  by apply Hfr.
Qed.

Lemma process_book_touches_only_its_files_witness :
  fs (world_of
        (process_book (λ _, Fetched unordered_book) "bukhari" empty_world
           [name_reply "Wahyu"; translated_reply 2; translated_reply 1]))
    !! error_path = fs empty_world !! error_path.
Proof.
  apply (process_book_touches_only_its_files (λ _, Fetched unordered_book)
           "bukhari" empty_world
           [name_reply "Wahyu"; translated_reply 2; translated_reply 1]
           error_path).
  intros [Heq|[i Heq]]; vm_compute in Heq; discriminate.
Defined.

(** ** Where an uncaught exception comes from *)







Lemma main_error_file remote disk tr :
  (∀ w, main remote disk tr = Exited 1 w →
        fs w !! error_path = disk !! error_path)
  ∧ (∀ w, main remote disk tr = Exited 0 w →
          (error_hadith_numbers w ≠ [] →
           fs w !! error_path = Some (ErrorsJson (error_hadith_numbers w)))
          ∧ (error_hadith_numbers w = [] →
             fs w !! error_path = disk !! error_path)).
Proof.
  unfold main.
  set (w0 := {| fs := disk; error_hadith_numbers := []; events := [] |}).
  destruct (books_loop_effects remote BOOKS w0 tr) as (_ & Hep & Hord).
  assert (Hord' : ∀ code w, books_loop remote BOOKS w0 tr ≠ Exited code w).
  { intros code w Heq. rewrite Heq in Hord.
    by destruct Hord as [?|(? & ? & ? & _)]. }
  destruct (books_loop remote BOOKS w0 tr) as [[] w1 tr1| |e w1|code w1|];
    simpl in *; try (split; intros; discriminate).
  - split; [intros; discriminate|]. intros w [= <-].
    unfold save_error_hadiths.
    destruct (error_hadith_numbers w1) as [|n l] eqn:Herr.
    + split; [by rewrite Herr|by intros _].
    + simpl. rewrite Herr. split; [intros _; by rewrite lookup_insert_eq|done].
  - destruct e; split; intros w Heq; try discriminate.
    by injection Heq as <-.
  - by destruct (Hord' code w1).
Qed.

(** X14.  When the run ends with code 1 on a network error, the error list
    is not saved: [error_hadiths.json] holds what it held when the run
    started, whatever records have failed in the books processed
    before. *)
Theorem main_network_exit_keeps_error_file remote disk tr w :
  main remote disk tr = Exited 1 w →
  fs w !! error_path = disk !! error_path.
Proof.
  intros Hrun. destruct (main_error_file remote disk tr) as [Hexit _].
  by apply Hexit.
Qed.

Lemma main_network_exit_keeps_error_file_witness :
  main failing_remote ∅
    [name_reply "Wahyu"; empty_object_reply; translated_reply 1] =
  Exited 1
    (world_of
       (main failing_remote ∅
          [name_reply "Wahyu"; empty_object_reply; translated_reply 1]))
  ∧ error_hadith_numbers
      (world_of
         (main failing_remote ∅
            [name_reply "Wahyu"; empty_object_reply; translated_reply 1])) =
    [2]
  ∧ fs (world_of
          (main failing_remote ∅
             [name_reply "Wahyu"; empty_object_reply; translated_reply 1]))
      !! error_path = (∅ : gmap string file) !! error_path.
Proof.
  split; [vm_compute; reflexivity|]. split; [vm_compute; reflexivity|].
  apply (main_network_exit_keeps_error_file failing_remote ∅
           [name_reply "Wahyu"; empty_object_reply; translated_reply 1]).
  vm_compute. reflexivity.
Defined.

(** X15.  When the run ends normally, with code 0, and records have
    failed, [error_hadiths.json] holds exactly the error list; when none
    has failed the file is not written and holds what it held when the
    run started. *)
Theorem main_normal_exit_error_file remote disk tr w :
  main remote disk tr = Exited 0 w →
  (error_hadith_numbers w ≠ [] →
   fs w !! error_path = Some (ErrorsJson (error_hadith_numbers w)))
  ∧ (error_hadith_numbers w = [] → fs w !! error_path = disk !! error_path).
Proof.
  intros Hrun. destruct (main_error_file remote disk tr) as [_ Hexit].
  by apply Hexit.
Qed.

Lemma main_normal_exit_error_file_witness :
  (error_hadith_numbers
     (world_of
        (main two_books_remote {[ error_path := ErrorsJson [7] ]}
           [name_reply "Wahyu"; name_reply "Iman"])) ≠ [] →
   fs (world_of
         (main two_books_remote {[ error_path := ErrorsJson [7] ]}
            [name_reply "Wahyu"; name_reply "Iman"])) !! error_path =
   Some (ErrorsJson
           (error_hadith_numbers
              (world_of
                 (main two_books_remote {[ error_path := ErrorsJson [7] ]}
                    [name_reply "Wahyu"; name_reply "Iman"])))))
  ∧ (error_hadith_numbers
       (world_of
          (main two_books_remote {[ error_path := ErrorsJson [7] ]}
             [name_reply "Wahyu"; name_reply "Iman"])) = [] →
     fs (world_of
           (main two_books_remote {[ error_path := ErrorsJson [7] ]}
              [name_reply "Wahyu"; name_reply "Iman"])) !! error_path =
     ({[ error_path := ErrorsJson [7] ]} : gmap string file) !! error_path).
Proof.
  apply (main_normal_exit_error_file two_books_remote
           {[ error_path := ErrorsJson [7] ]}
           [name_reply "Wahyu"; name_reply "Iman"]).
  vm_compute. reflexivity.
Defined.

(** X16.  However a run ends, every number on its error list is the
    position-in-book number of a record of one of the books that were
    fetched: only failed records are listed, a chapter name that could not
    be translated is not. *)
Theorem main_error_list_provenance remote disk tr :
  Forall (number_of_fetched_record remote BOOKS)
    (error_hadith_numbers (world_of (main remote disk tr))).
Proof.
  unfold main.
  set (w0 := {| fs := disk; error_hadith_numbers := []; events := [] |}).
  destruct (books_loop_effects remote BOOKS w0 tr)
    as ((added & Herr & Hnum) & _ & _).
  change (error_hadith_numbers w0 ++ added) with added in Herr.
  rewrite <- Herr in Hnum. clear Herr.
  assert (Hsave : ∀ w, error_hadith_numbers (save_error_hadiths w) =
                       error_hadith_numbers w).
  { intros w. unfold save_error_hadiths.
    by destruct (error_hadith_numbers w) eqn:He. }
  destruct (books_loop remote BOOKS w0 tr) as [[] w1 tr1| |e w1| |];
    cbn [world_of] in *; rewrite ?Hsave; try done.
  by destruct e.
Qed.

Lemma books_loop_frame remote books path :
  (∀ book_name, book_name ∈ books → ¬ file_of_book book_name path) →
  ∀ w tr, fs (world_of (books_loop remote books w tr)) !! path = fs w !! path.
Proof.
  induction books as [|book_name books IH]; intros Hpath w tr;
    cbn [books_loop]; [done|].
  destruct (process_book_effects remote book_name w tr) as [_ Hfr].
  specialize (Hfr path (Hpath book_name ltac:(left))).
  destruct (process_book remote book_name w tr) as [[] w1 tr1| | | |];
    simpl in *; try done.
  rewrite IH; [done|]. intros bn Hin. apply Hpath. by right.
Qed.

(** X17.  A whole run writes nothing but the chapter-name indexes and the
    chapter files of the nine books and [error_hadiths.json]: whatever the
    corpus and the endpoint answer and however the run ends, any other
    path holds what it held when the run started. *)
Theorem main_touches_only_its_files remote disk tr path :
  path ≠ error_path →
  (∀ book_name, book_name ∈ BOOKS → ¬ file_of_book book_name path) →
  fs (world_of (main remote disk tr)) !! path = disk !! path.
Proof.
  intros Herr Hpath. unfold main.
  set (w0 := {| fs := disk; error_hadith_numbers := []; events := [] |}).
  pose proof (books_loop_frame remote BOOKS path Hpath w0 tr) as Hfr.
  change (fs w0) with disk in Hfr.
  destruct (books_loop remote BOOKS w0 tr) as [[] w1 tr1| |e w1| |];
    cbn [world_of] in *; try done; [|by destruct e].
  unfold save_error_hadiths.
  destruct (error_hadith_numbers w1); [done|].
  simpl. by rewrite lookup_insert_ne.
Qed.

Lemma main_touches_only_its_files_witness :
  fs (world_of
        (main failing_remote {[ "README.md" := Garbage ]}
           [name_reply "Wahyu"; empty_object_reply; translated_reply 1]))
    !! "README.md" =
  ({[ "README.md" := Garbage ]} : gmap string file) !! "README.md".
Proof.
  apply (main_touches_only_its_files failing_remote
           {[ "README.md" := Garbage ]}
           [name_reply "Wahyu"; empty_object_reply; translated_reply 1]
           "README.md").
  - vm_compute. discriminate.
  - intros book_name Hin [Heq|[i Heq]];
      repeat (apply elem_of_cons in Hin as [->|Hin]);
      try (by apply elem_of_nil in Hin);
      vm_compute in Heq; discriminate.
Defined.

(** X18.  [translate_chapter_name] is bounded whatever the endpoint does:
    it sends nothing but the chapter name it was given, makes at most 20
    calls, has returned once the endpoint has given 20 outcomes, raises
    nothing, and touches neither the disk nor the error list. *)
Theorem translate_chapter_name_bounded models name mi c w tr :
  ∃ evs,
    events (world_of (translate_chapter_name models name mi c w tr)) =
      events w ++ evs
    ∧ Forall (chapter_call_of name) evs
    ∧ (length (calls evs) ≤ 20)%nat
    ∧ ((20 ≤ length tr)%nat →
       finished (translate_chapter_name models name mi c w tr) = true)
    ∧ in_order (translate_chapter_name models name mi c w tr)
    ∧ raises (translate_chapter_name models name mi c w tr) = false
    ∧ fs (world_of (translate_chapter_name models name mi c w tr)) = fs w
    ∧ error_hadith_numbers
        (world_of (translate_chapter_name models name mi c w tr)) =
      error_hadith_numbers w.
Proof.
  unfold translate_chapter_name.
  destruct (translate_chapter_name_loop_bound models name 20 tr 0 mi c w)
    as (evs & Hev & Hlen & _ & Hfin); [lia|].
  destruct (translate_chapter_name_loop_run models name 20 tr 0 mi c w)
    as (evs' & mi' & Hev' & Hfs & Herr & Hall & _ & Hr & _).
  assert (evs' = evs) as -> by (rewrite Hev in Hev'; by apply app_inv_head in Hev').
  exists evs. split; [done|]. split; [done|]. split; [lia|].
  split; [intros; apply Hfin; lia|].
  split; [apply translate_chapter_name_loop_in_order|done].
Qed.

(** X19.  The retry loop of a record, started at a model of the list,
    counts the attempts that come back with a reply: whatever failures lie
    between them, at most 5 replies are asked for, every call is for the
    same record and takes one outcome of the endpoint, and the loop has
    ended once the endpoint has replied 5 times. *)
Theorem hadith_retry_loop_reply_ceiling models data tr mi c w :
  (mi < length models)%nat →
  ∃ evs,
    events (world_of (hadith_retry_loop models data tr 0 mi c w)) =
      events w ++ evs
    ∧ Forall (hadith_call_of data) evs
    ∧ (returned_attempts (calls evs) ≤ 5)%nat
    ∧ (length (calls evs) ≤ length tr)%nat
    ∧ ((5 ≤ returned_attempts tr)%nat →
       finished (hadith_retry_loop models data tr 0 mi c w) = true).
Proof.
  intros Hmi.
  destruct (hadith_retry_loop_bound models data tr 0 mi c w)
    as (evs & Hev & Hret & Hlen & Hfin); [done|lia|].
  destruct (hadith_retry_loop_run models data tr 0 mi c w)
    as (evs' & mi' & Hev' & _ & _ & Hall & _).
  assert (evs' = evs) as -> by (rewrite Hev in Hev'; by apply app_inv_head in Hev').
  exists evs. split; [done|]. split; [done|]. split; [lia|].
  split; [done|]. intros. apply Hfin. lia.
Qed.

Lemma hadith_retry_loop_reply_ceiling_witness :
  ∃ evs,
    events (world_of
              (hadith_retry_loop MODELS (make_translation_data (sample_hadith 1 1))
                 [TimeoutError; Reply unparseable_reply; quota_error;
                  translated_reply 1] 0 0 0 empty_world)) =
      events empty_world ++ evs
    ∧ Forall (hadith_call_of (make_translation_data (sample_hadith 1 1))) evs
    ∧ (returned_attempts (calls evs) ≤ 5)%nat
    ∧ (length (calls evs) ≤
       length [TimeoutError; Reply unparseable_reply; quota_error;
               translated_reply 1])%nat
    ∧ ((5 ≤ returned_attempts
              [TimeoutError; Reply unparseable_reply; quota_error;
               translated_reply 1])%nat →
       finished
         (hadith_retry_loop MODELS (make_translation_data (sample_hadith 1 1))
            [TimeoutError; Reply unparseable_reply; quota_error;
             translated_reply 1] 0 0 0 empty_world) = true).
Proof.
  apply (hadith_retry_loop_reply_ceiling MODELS
           (make_translation_data (sample_hadith 1 1))
           [TimeoutError; Reply unparseable_reply; quota_error; translated_reply 1]
           0 0 empty_world).
  simpl. lia.
Defined.

